(** * Autobike trajectory controller: [myrio/c/src/trajectory_controller.c]

    A shallow embedding of the C source and the properties checked against it.

    Conventions of the embedding.
    - A C [double] is idealised as a real number of [R]: rounding, infinities
      and NaN are outside the model.  A division is Rocq's total [Rdiv], so
      the model is silent on what the C code computes where it divides by
      zero ([v = 0], [lr + lf = 0], a vehicle straight above or below the
      previous waypoint).
      [M_PI] is [PI], [pow(a,2.0)] is [a ^ 2], [fabs] is [Rabs], and [sqrt],
      [sin], [cos], [tan], [atan] are the functions of the real library.
    - A C [int] index is an integer of [Z].
    - An array is a list, read through [load]: the read of an index outside
      the array, which is undefined behaviour in C, ends the run with
      [OutOfRange i].
    - The function-local [static double x] is the field [static_x] of the
      record [statics], passed in and out of every call. *)

From Stdlib Require Import Reals Lra Lia ZArith List Bool.
Import ListNotations.
Open Scope R_scope.

(** ** Runs that may leave the arrays *)

Inductive result (A : Type) : Type :=
| Ok (a : A)
| OutOfRange (i : Z)
| OutOfFuel.

Arguments Ok {A} a.
Arguments OutOfRange {A} i.
Arguments OutOfFuel {A}.

Definition bind {A B : Type} (c : result A) (k : A -> result B) : result B :=
  match c with
  | Ok a => k a
  | OutOfRange i => OutOfRange i
  | OutOfFuel => OutOfFuel
  end.

Notation "x <- c1 ;; c2" := (bind c1 (fun x => c2))
  (at level 100, c1 at next level, right associativity).

(** [a[i]] for a C array [a] held in a list. *)
Definition load (a : list R) (i : Z) : result R :=
  if (i <? 0)%Z then OutOfRange i
  else match nth_error a (Z.to_nat i) with
       | Some d => Ok d
       | None => OutOfRange i
       end.

(** ** Comparisons of doubles as booleans *)

Definition Rgtb (a b : R) : bool := if Rgt_dec a b then true else false.
Definition Rltb (a b : R) : bool := if Rlt_dec a b then true else false.
Definition Rgeb (a b : R) : bool := if Rge_dec a b then true else false.
Definition Rleb (a b : R) : bool := if Rle_dec a b then true else false.

(** ** [math.h] *)

Definition M_PI : R := PI.

(** [floor]: the largest integer not above [r]. *)
Definition floor (r : R) : R := IZR (Int_part r).

(** Rounding toward zero, the quotient [fmod] uses. *)
Definition truncZ (r : R) : Z :=
  if Rle_dec 0 r then Int_part r else (- Int_part (- r))%Z.

(** [fmod(a, b)]: [a - n*b] with [n] the quotient [a/b] rounded toward zero,
    so the result has the sign of [a]. *)
Definition fmod (a b : R) : R := a - IZR (truncZ (a / b)) * b.

(** ** The helpers of the source *)

(** [#define g 9.81] *)
Definition g : R := 981 / 100.

(** [double sign(double value)], lines 33-47. *)
Definition sign (value : R) : R :=
  if Rgtb value 0 then 1
  else if Rltb value 0 then -1
  else 0.

(** [double min(double a, double b)], lines 50-60. *)
Definition min (a b : R) : R :=
  if Rltb a b then a else b.

(** [double mod(double a, double b)], lines 63-68 ([mod] is a reserved word
    here, hence the underscore). *)
Definition mod_ (a b : R) : R :=
  let quotient := a / b in
  let quotient_floor := floor quotient in
  let remainder := a - quotient_floor * b in
  remainder.

(** [double wrap_angle(double angle)], lines 71-77. *)
Definition wrap_angle (angle : R) : R :=
  let wrapped_angle := fmod (angle + M_PI) (2 * M_PI) in
  let wrapped_angle :=
    if Rltb wrapped_angle 0 then wrapped_angle + 2 * M_PI else wrapped_angle in
  wrapped_angle - M_PI.

(** The value [wrap_angle] holds before its last subtraction, for a modulus
    [P]: the representative of [y] modulo [P] in [[0, P)]. *)
Definition wrapped (y P : R) : R :=
  if Rltb (fmod y P) 0 then fmod y P + P else fmod y P.

(** ** The static of [trajectory_controller] *)

(** [static double x = 0;] (line 187).  [x_stores] is a ghost counter of the
    assignments made to [x]. *)
Record statics : Type := mkStatics {
  static_x : R;
  x_stores : nat
}.

Definition statics_init : statics := mkStatics 0 0.

Definition store_x (st : statics) (d : R) : statics :=
  mkStatics d (S (x_stores st)).

(** ** The platform *)

(** [sizeof(traj_loc)] with [traj_loc] a [double *] is the size of a pointer,
    fixed by the target. *)
Record platform : Type := mkPlatform {
  sizeof_double_ptr : Z
}.

Definition LP64 : platform := mkPlatform 8.
Definition ILP32 : platform := mkPlatform 4.

(** ** Unpacking the trajectory, lines 94-106 *)

(** [int size_traj_loc = sizeof(traj_loc) / 3;] *)
Definition size_traj_loc_of (p : platform) : Z := (sizeof_double_ptr p / 3)%Z.

(** The [for] loop of lines 100-106, [n] iterations left, at index [i].
    [counter] equals [i] and is the number of elements stored so far, so the
    store [X_loc[counter] = ...] extends the filled part of the array by one. *)
Fixpoint unpack_loop (traj_loc : list R) (size_traj_loc : Z) (n : nat) (i : Z)
    (X_loc Y_loc Psi_loc : list R) : result (list R * list R * list R) :=
  match n with
  | O => Ok (X_loc, Y_loc, Psi_loc)
  | S n' =>
      X_i <- load traj_loc i ;;
      Y_i <- load traj_loc (i + size_traj_loc) ;;
      Psi_i <- load traj_loc (i + 2 * size_traj_loc) ;;
      unpack_loop traj_loc size_traj_loc n' (i + 1)
        (X_loc ++ [X_i]) (Y_loc ++ [Y_i]) (Psi_loc ++ [Psi_i])
  end.

Definition unpack (size_traj_loc : Z) (traj_loc : list R)
    : result (list R * list R * list R) :=
  unpack_loop traj_loc size_traj_loc (Z.to_nat size_traj_loc) 0 [] [] [].

(** ** Closest-point search, lines 109-117 *)

Section Search.
Variable size_traj_loc : Z.
Variables X_loc Y_loc : list R.
Variables X_est Y_est : R.

(** One evaluation of the [while] condition and, when it holds, of the body.
    Both squared distances are computed, with their four array reads, before
    the index is compared with [size_traj_loc-1]. *)
Fixpoint search_loop (fuel : nat) (closestpoint_idx : Z) : result Z :=
  match fuel with
  | O => OutOfFuel
  | S fuel' =>
      X_i <- load X_loc closestpoint_idx ;;
      Y_i <- load Y_loc closestpoint_idx ;;
      X_n <- load X_loc (closestpoint_idx + 1) ;;
      Y_n <- load Y_loc (closestpoint_idx + 1) ;;
      if Rgeb ((X_i - X_est) ^ 2 + (Y_i - Y_est) ^ 2)
              ((X_n - X_est) ^ 2 + (Y_n - Y_est) ^ 2)
         && (closestpoint_idx <=? size_traj_loc - 1)%Z
      then search_loop fuel' (closestpoint_idx + 1)
      else Ok closestpoint_idx
  end.

(** [int closestpoint_idx = 1;] followed by the loop.  The fuel is one more
    than the window size, which [search_never_out_of_fuel] shows is enough. *)
Definition closest_point_search : result Z :=
  search_loop (S (Z.to_nat size_traj_loc)) 1.
End Search.

(** The squared distance the search compares, at a waypoint inside the
    window. *)
Definition sq_dist (X_loc Y_loc : list R) (X_est Y_est : R) (i : Z) : R :=
  (nth (Z.to_nat i) X_loc 0 - X_est) ^ 2 + (nth (Z.to_nat i) Y_loc 0 - Y_est) ^ 2.

(** ** The blocks of the control law *)

(** Lines 130-138, "Limit D_psiref between -pi and pi": two conditionals in
    sequence, each replacing [D_psiref] by a call of [mod]. *)
Definition limit_D_psiref (D_psiref : R) : R :=
  let D_psiref :=
    if Rgeb D_psiref M_PI then mod_ D_psiref (-2 * M_PI) else D_psiref in
  let D_psiref :=
    if Rleb D_psiref (- M_PI) then mod_ D_psiref (2 * M_PI) else D_psiref in
  D_psiref.

(** Lines 148-155: the heading index follows the comparison of the projected
    distance with the length of the segment before the closest point. *)
Definition select_heading_idx (closestpoint_idx : Z)
    (projected_dist compared_dist : R) : Z :=
  let closestpoint_heading_idx := closestpoint_idx in
  if Rgeb projected_dist compared_dist
  then (closestpoint_idx + 1)%Z
  else closestpoint_heading_idx.

(** Line 184, "Steering contribution from trajectory error". *)
Definition steering_error (k1 k2 e1_max e1 e2 : R) : R :=
  - k1 * sign e1 * min (Rabs e1) e1_max - k2 * e2.

(** Lines 187-193, "Steering contribution from heading change": [x_dot] and
    [delta_ref_psi] are computed from the stored [x], then [x = x_dot]. *)
Definition filter_step (Ad_t Bd_t C_t D_t dpsiref : R) (st : statics)
    : R * statics :=
  let x_dot := Ad_t * static_x st + Bd_t * dpsiref in
  let delta_ref_psi := C_t * static_x st + D_t * dpsiref in
  let st := store_x st x_dot in
  (delta_ref_psi, st).

(** Lines 198-206, "Limit steer angle reference between -pi/4 and pi/4". *)
Definition limit_delta_ref (delta_ref : R) : R :=
  let delta_ref := if Rgeb delta_ref (M_PI / 4) then M_PI / 4 else delta_ref in
  let delta_ref :=
    if Rleb delta_ref (- M_PI / 4) then - M_PI / 4 else delta_ref in
  delta_ref.

(** Lines 208-210, "Transform steering reference into roll reference". *)
Definition roll_transform (lr lf lambda v delta_ref : R) : R :=
  let eff_delta_ref := delta_ref * sin lambda in
  -1 * atan (tan eff_delta_ref * (v ^ 2 / (lr + lf)) / g).

(** ** The locals of a call at its end *)

Record frame : Type := mkFrame {
  f_closestpoint_idx : Z;          (* as the search left it, before line 180 *)
  f_closestpoint_heading_idx : Z;
  f_dx : R;
  f_dy : R;
  f_D_psiref : R;
  f_projected_dist : R;
  f_compared_dist : R;
  f_e1 : R;
  f_e2 : R;                        (* after [wrap_angle] *)
  f_dpsiref : R;
  f_delta_ref_error : R;
  f_delta_ref_psi : R;
  f_delta_ref_sum : R;             (* [delta_ref] of line 196 *)
  f_delta_ref : R;                 (* [delta_ref] after line 206 *)
  f_roll_ref : R;                  (* [*roll_ref] *)
  f_closestpoint_idx_out : Z       (* [*closestpoint_idx_out] *)
}.

(** ** Lines 108-210 on an unpacked window *)

Definition control (size_traj_loc : Z) (X_loc Y_loc Psi_loc : list R)
    (X_est Y_est Psi_est v lr lf lambda k1 k2 e1_max Ad_t Bd_t C_t D_t : R)
    (st : statics) : result (frame * statics) :=
  closestpoint_idx <-
    closest_point_search size_traj_loc X_loc Y_loc X_est Y_est ;;
  X_i <- load X_loc closestpoint_idx ;;
  Y_i <- load Y_loc closestpoint_idx ;;
  let dx := X_est - X_i in
  let dy := Y_est - Y_i in
  Psi_n <- load Psi_loc (closestpoint_idx + 1) ;;
  Psi_i <- load Psi_loc closestpoint_idx ;;
  let D_psiref := limit_D_psiref (Psi_n - Psi_i) in
  X_p <- load X_loc (closestpoint_idx - 1) ;;
  Y_p <- load Y_loc (closestpoint_idx - 1) ;;
  let dis_true_previous := sqrt ((X_p - X_est) ^ 2 + (Y_p - Y_est) ^ 2) in
  let alpha_star := atan ((Y_p - Y_est) / (X_p - X_est)) in
  let alpha_projected_dist := alpha_star - Psi_i in
  let projected_dist := Rabs (dis_true_previous * cos alpha_projected_dist) in
  let compared_dist := sqrt ((X_i - X_p) ^ 2 + (Y_i - Y_p) ^ 2) in
  let closestpoint_heading_idx :=
    select_heading_idx closestpoint_idx projected_dist compared_dist in
  Psi_h <- load Psi_loc closestpoint_heading_idx ;;
  let e1 := dy * cos Psi_h - dx * sin Psi_h in
  let e2 := Psi_est - Psi_h in
  let ref_X := X_i in
  let ref_Y := Y_i in
  let e2 := wrap_angle e2 in
  X_n <- load X_loc (closestpoint_idx + 1) ;;
  Y_n <- load Y_loc (closestpoint_idx + 1) ;;
  let dX := X_n - ref_X in
  let dY := Y_n - ref_Y in
  let dis := sqrt (dX ^ 2 + dY ^ 2) in
  let Ts_psi := dis / v in
  let dpsiref := D_psiref / Ts_psi in
  let closestpoint_idx_out := (closestpoint_idx - 1)%Z in
  let delta_ref_error := steering_error k1 k2 e1_max e1 e2 in
  let '(delta_ref_psi, st) := filter_step Ad_t Bd_t C_t D_t dpsiref st in
  let delta_ref_sum := delta_ref_psi + delta_ref_error in
  let delta_ref := limit_delta_ref delta_ref_sum in
  let roll_ref := roll_transform lr lf lambda v delta_ref in
  Ok (mkFrame closestpoint_idx closestpoint_heading_idx dx dy D_psiref
        projected_dist compared_dist e1 e2 dpsiref delta_ref_error
        delta_ref_psi delta_ref_sum delta_ref roll_ref closestpoint_idx_out,
      st).

(** ** [trajectory_controller], lines 79-212 *)

Record outputs : Type := mkOutputs {
  roll_ref : R;
  closestpoint_idx_out : Z
}.

Definition outputs_of (f : frame) : outputs :=
  mkOutputs (f_roll_ref f) (f_closestpoint_idx_out f).

(** The whole call, returning the locals; [bike_params] and [traj_params] are
    the caller's arrays. *)
Definition trajectory_controller_frame (p : platform) (traj_loc : list R)
    (X_est Y_est Psi_est v : R) (bike_params traj_params : list R)
    (Ad_t Bd_t C_t D_t : R) (st : statics) : result (frame * statics) :=
  lr <- load bike_params 0 ;;
  lf <- load bike_params 1 ;;
  lambda <- load bike_params 2 ;;
  k1 <- load traj_params 0 ;;
  k2 <- load traj_params 1 ;;
  e1_max <- load traj_params 2 ;;
  let size_traj_loc := size_traj_loc_of p in
  w <- unpack size_traj_loc traj_loc ;;
  let '(X_loc, Y_loc, Psi_loc) := w in
  control size_traj_loc X_loc Y_loc Psi_loc X_est Y_est Psi_est v
    lr lf lambda k1 k2 e1_max Ad_t Bd_t C_t D_t st.

Definition trajectory_controller (p : platform) (traj_loc : list R)
    (X_est Y_est Psi_est v : R) (bike_params traj_params : list R)
    (Ad_t Bd_t C_t D_t : R) (st : statics) : result (outputs * statics) :=
  r <- trajectory_controller_frame p traj_loc X_est Y_est Psi_est v
         bike_params traj_params Ad_t Bd_t C_t D_t st ;;
  Ok (outputs_of (fst r), snd r).

(** ** The end-to-end scenario of the specification

    Five colinear waypoints on the X axis, one unit apart, all headings zero;
    the vehicle at [(1/2, 0)] with heading zero and [v = 1]; gains
    [k1 = k2 = e1_max = 1]; the pass-through filter [Ad = Bd = C = 0],
    [D = 1].  The bicycle has [lr = lf = 1/2] and [lambda = 1]. *)
Definition scenario_X : list R := [0; 1; 2; 3; 4].
Definition scenario_Y : list R := [0; 0; 0; 0; 0].
Definition scenario_Psi : list R := [0; 0; 0; 0; 0].

Definition scenario_control (st : statics) : result (frame * statics) :=
  control 5 scenario_X scenario_Y scenario_Psi (1 / 2) 0 0 1
    (1 / 2) (1 / 2) 1 1 1 1 0 0 0 1 st.

(** ** A window heading west

    Five colinear waypoints on the X axis, one unit apart, travelled toward
    decreasing X, so every heading is [PI]; the vehicle at [(-7/5, 0)] with
    heading [PI]; the other arguments as in the scenario above. *)
Definition west_X : list R := [0; -1; -2; -3; -4].
Definition west_Y : list R := [0; 0; 0; 0; 0].
Definition west_Psi : list R := [PI; PI; PI; PI; PI].

Definition west_control (st : statics) : result (frame * statics) :=
  control 5 west_X west_Y west_Psi (- (7 / 5)) 0 PI 1
    (1 / 2) (1 / 2) 1 1 1 1 0 0 0 1 st.

(** ** The scenario with the vehicle off the path

    The window of the scenario, with the vehicle at [(1/2, Y_est)] and the
    lateral gain [k1 = 2]. *)
Definition offset_control (Y_est : R) (st : statics)
    : result (frame * statics) :=
  control 5 scenario_X scenario_Y scenario_Psi (1 / 2) Y_est 0 1
    (1 / 2) (1 / 2) 1 2 1 1 0 0 0 1 st.

(** ** The single-step limiter the specification describes

    Follows the specification's words for [D_psiref]: "conditionally
    subtracting/adding 2 pi once", to be compared with [limit_D_psiref]. *)
Definition D_psiref_single_correction (D_psiref : R) : R :=
  if Rgeb D_psiref M_PI then D_psiref - 2 * M_PI
  else if Rleb D_psiref (- M_PI) then D_psiref + 2 * M_PI
  else D_psiref.

(** * Properties *)

(** ** Comparisons *)

Lemma Rgtb_spec (a b : R) : reflect (a > b) (Rgtb a b).
Proof. unfold Rgtb. destruct (Rgt_dec a b); constructor; assumption. Qed.

Lemma Rltb_spec (a b : R) : reflect (a < b) (Rltb a b).
Proof. unfold Rltb. destruct (Rlt_dec a b); constructor; assumption. Qed.

Lemma Rgeb_spec (a b : R) : reflect (a >= b) (Rgeb a b).
Proof. unfold Rgeb. destruct (Rge_dec a b); constructor; assumption. Qed.

Lemma Rleb_spec (a b : R) : reflect (a <= b) (Rleb a b).
Proof. unfold Rleb. destruct (Rle_dec a b); constructor; assumption. Qed.

(** ** [floor] and [mod] *)

Lemma floor_bounds (r : R) : floor r <= r < floor r + 1.
Proof.
  unfold floor. destruct (base_Int_part r) as [Hle Hgt]. lra.
Qed.

Lemma floor_unique (z : Z) (r : R) :
  IZR z <= r < IZR z + 1 -> floor r = IZR z.
Proof.
  intros H. unfold floor. f_equal. symmetry. apply Int_part_spec. lra.
Qed.

Lemma mod_pos_range (a b : R) : 0 < b -> 0 <= mod_ a b < b.
Proof.
  intros Hb. unfold mod_.
  destruct (floor_bounds (a / b)) as [Hlo Hhi].
  assert (Ha : a = a / b * b) by (field; lra).
  split; nra.
Qed.

Lemma mod_neg_range (a b : R) : b < 0 -> b < mod_ a b <= 0.
Proof.
  intros Hb. unfold mod_.
  destruct (floor_bounds (a / b)) as [Hlo Hhi].
  assert (Ha : a = a / b * b) by (field; lra).
  split; nra.
Qed.

Lemma mod_pos_value (z : Z) (a b : R) :
  0 < b -> IZR z * b <= a < (IZR z + 1) * b -> mod_ a b = a - IZR z * b.
Proof.
  intros Hb [Hlo Hhi]. unfold mod_.
  rewrite (floor_unique z); [reflexivity|].
  split.
  - apply Rmult_le_reg_r with b; [assumption|].
    replace (a / b * b) with a by (field; lra). assumption.
  - apply Rmult_lt_reg_r with b; [assumption|].
    replace (a / b * b) with a by (field; lra). assumption.
Qed.

Lemma mod_neg_value (z : Z) (a b : R) :
  b < 0 -> (IZR z + 1) * b < a <= IZR z * b -> mod_ a b = a - IZR z * b.
Proof.
  intros Hb [Hlo Hhi]. unfold mod_.
  rewrite (floor_unique z); [reflexivity|].
  assert (Hq : a / b = (- a) / (- b)) by (field; lra).
  rewrite Hq. split.
  - apply Rmult_le_reg_r with (- b); [lra|].
    replace (- a / - b * - b) with (- a) by (field; lra). lra.
  - apply Rmult_lt_reg_r with (- b); [lra|].
    replace (- a / - b * - b) with (- a) by (field; lra). lra.
Qed.

(** ** The limiter of [D_psiref] *)

Lemma limit_D_psiref_inside (D : R) :
  - PI < D < PI -> limit_D_psiref D = D.
Proof.
  intros H. unfold limit_D_psiref, M_PI.
  destruct (Rgeb_spec D PI); [lra|].
  destruct (Rleb_spec D (- PI)); [lra|]. reflexivity.
Qed.

Lemma limit_D_psiref_low (D : R) :
  - (2 * PI) <= D <= - PI -> limit_D_psiref D = D + 2 * PI.
Proof.
  intros H. pose proof PI_RGT_0 as Hpi. unfold limit_D_psiref, M_PI.
  destruct (Rgeb_spec D PI); [lra|].
  destruct (Rleb_spec D (- PI)); [|lra].
  rewrite (mod_pos_value (-1)); [lra | lra | lra].
Qed.

Lemma limit_D_psiref_high (D : R) :
  PI < D < 2 * PI -> limit_D_psiref D = D - 2 * PI.
Proof.
  intros H. pose proof PI_RGT_0 as Hpi. unfold limit_D_psiref, M_PI.
  destruct (Rgeb_spec D PI); [|lra].
  rewrite (mod_neg_value (-1)); [| lra | lra].
  destruct (Rleb_spec (D - -1 * (-2 * PI)) (- PI)); [lra | lra].
Qed.

Lemma limit_D_psiref_PI : limit_D_psiref PI = PI.
Proof.
  pose proof PI_RGT_0 as Hpi. unfold limit_D_psiref, M_PI.
  destruct (Rgeb_spec PI PI); [|lra].
  rewrite (mod_neg_value (-1)); [| lra | lra].
  destruct (Rleb_spec (PI - -1 * (-2 * PI)) (- PI)); [|lra].
  rewrite (mod_pos_value (-1)); [lra | lra | lra].
Qed.

Lemma limit_D_psiref_range (D : R) :
  - (2 * PI) <= D -> - PI < limit_D_psiref D <= PI.
Proof.
  intros H. pose proof PI_RGT_0 as Hpi.
  destruct (Rge_dec D PI) as [Hge|Hlt].
  - unfold limit_D_psiref, M_PI.
    destruct (Rgeb_spec D PI); [|lra].
    pose proof (mod_neg_range D (-2 * PI) ltac:(lra)) as Hm.
    set (s := mod_ D (-2 * PI)) in *.
    destruct (Rleb_spec s (- PI)); [|lra].
    rewrite (mod_pos_value (-1)); [lra | lra | lra].
  - destruct (Rle_dec D (- PI)) as [Hle|Hgt].
    + rewrite limit_D_psiref_low; lra.
    + rewrite limit_D_psiref_inside; lra.
Qed.

Lemma limit_D_psiref_below (D : R) :
  - (3 * PI) < D < - (2 * PI) -> limit_D_psiref D = D + 4 * PI.
Proof.
  intros H. pose proof PI_RGT_0 as Hpi. unfold limit_D_psiref, M_PI.
  destruct (Rgeb_spec D PI); [lra|].
  destruct (Rleb_spec D (- PI)); [|lra].
  rewrite (mod_pos_value (-2)); [lra | lra | lra].
Qed.

(** ** [fmod] and [wrap_angle] *)

Lemma truncZ_nonneg (r : R) :
  0 <= r -> IZR (truncZ r) <= r < IZR (truncZ r) + 1.
Proof.
  intros H. unfold truncZ. destruct (Rle_dec 0 r); [|lra].
  destruct (base_Int_part r). lra.
Qed.

Lemma truncZ_neg (r : R) :
  r < 0 -> IZR (truncZ r) - 1 < r <= IZR (truncZ r).
Proof.
  intros H. unfold truncZ. destruct (Rle_dec 0 r); [lra|].
  rewrite opp_IZR. destruct (base_Int_part (- r)). lra.
Qed.

(** [fmod] by a positive modulus stays within one modulus of zero, on the
    side of its first argument. *)
Lemma fmod_range (y P : R) :
  0 < P ->
  (0 <= y -> 0 <= fmod y P < P) /\ (y < 0 -> - P < fmod y P <= 0).
Proof.
  intros HP. unfold fmod.
  assert (Hy : y = y / P * P) by (field; lra).
  split; intros H.
  - assert (Hq : 0 <= y / P).
    { apply Rmult_le_reg_r with P; [assumption|]. lra. }
    destruct (truncZ_nonneg _ Hq). split; nra.
  - assert (Hq : y / P < 0).
    { apply Rmult_lt_reg_r with P; [assumption|]. lra. }
    destruct (truncZ_neg _ Hq). split; nra.
Qed.

Lemma wrapped_range (y P : R) : 0 < P -> 0 <= wrapped y P < P.
Proof.
  intros HP. unfold wrapped.
  destruct (fmod_range y P HP) as [Hpos Hneg].
  destruct (Rltb_spec (fmod y P) 0) as [Hlt|Hge].
  - destruct (Rle_dec 0 y) as [Hy|Hy]; [specialize (Hpos Hy); lra|].
    assert (Hy' : y < 0) by lra. specialize (Hneg Hy'). lra.
  - destruct (Rle_dec 0 y) as [Hy|Hy]; [specialize (Hpos Hy); lra|].
    assert (Hy' : y < 0) by lra. specialize (Hneg Hy'). lra.
Qed.

Lemma wrapped_congruent (y P : R) :
  exists m : Z, wrapped y P = y + IZR m * P.
Proof.
  unfold wrapped, fmod.
  destruct (Rltb (y - IZR (truncZ (y / P)) * P) 0).
  - exists (- truncZ (y / P) + 1)%Z. rewrite plus_IZR, opp_IZR. lra.
  - exists (- truncZ (y / P))%Z. rewrite opp_IZR. lra.
Qed.

Lemma congruent_in_window (P w1 w2 : R) (m : Z) :
  0 < P -> 0 <= w1 < P -> 0 <= w2 < P -> w1 - w2 = IZR m * P -> w1 = w2.
Proof.
  intros HP H1 H2 Hm.
  assert (Hlt : (m < 1)%Z).
  { apply lt_IZR. apply Rmult_lt_reg_r with P; [assumption|]. lra. }
  assert (Hgt : (-1 < m)%Z).
  { apply lt_IZR. apply Rmult_lt_reg_r with P; [assumption|]. lra. }
  assert (m = 0%Z) by lia. subst m. lra.
Qed.

Lemma wrapped_periodic (y P : R) (k : Z) :
  0 < P -> wrapped (y + IZR k * P) P = wrapped y P.
Proof.
  intros HP.
  destruct (wrapped_congruent (y + IZR k * P) P) as [m1 H1].
  destruct (wrapped_congruent y P) as [m2 H2].
  apply (congruent_in_window P _ _ (m1 + k - m2)%Z HP).
  - apply wrapped_range; assumption.
  - apply wrapped_range; assumption.
  - rewrite H1, H2, minus_IZR, plus_IZR. lra.
Qed.

Lemma wrap_angle_wrapped (a : R) :
  wrap_angle a = wrapped (a + PI) (2 * PI) - PI.
Proof. reflexivity. Qed.

Lemma wrap_angle_range (a : R) : - PI <= wrap_angle a < PI.
Proof.
  rewrite wrap_angle_wrapped. pose proof PI_RGT_0 as Hpi.
  pose proof (wrapped_range (a + PI) (2 * PI) ltac:(lra)). lra.
Qed.

Lemma wrap_angle_periodic (a : R) (k : Z) :
  wrap_angle (a + 2 * PI * IZR k) = wrap_angle a.
Proof.
  rewrite !wrap_angle_wrapped. pose proof PI_RGT_0 as Hpi.
  replace (a + 2 * PI * IZR k + PI) with (a + PI + IZR k * (2 * PI)) by lra.
  rewrite wrapped_periodic; [reflexivity | lra].
Qed.

Lemma wrap_angle_fixes (a : R) : - PI <= a < PI -> wrap_angle a = a.
Proof.
  intros H. rewrite wrap_angle_wrapped. pose proof PI_RGT_0 as Hpi.
  pose proof (wrapped_range (a + PI) (2 * PI) ltac:(lra)) as Hr.
  destruct (wrapped_congruent (a + PI) (2 * PI)) as [m Hm].
  assert (wrapped (a + PI) (2 * PI) = a + PI); [|lra].
  apply (congruent_in_window (2 * PI) _ _ m); lra.
Qed.

Lemma wrap_angle_minus_PI : wrap_angle (- PI) = - PI.
Proof. apply wrap_angle_fixes. pose proof PI_RGT_0. lra. Qed.

Lemma wrap_angle_PI : wrap_angle PI = - PI.
Proof.
  replace PI with (- PI + 2 * PI * IZR 1) at 1 by lra.
  rewrite wrap_angle_periodic. apply wrap_angle_minus_PI.
Qed.

(** ** Array reads *)

Lemma load_Ok_inv (a : list R) (i : Z) (d : R) :
  load a i = Ok d ->
  (0 <= i < Z.of_nat (length a))%Z /\ nth (Z.to_nat i) a 0 = d.
Proof.
  unfold load. destruct (Z.ltb_spec i 0); [discriminate|].
  destruct (nth_error a (Z.to_nat i)) eqn:E; [|discriminate].
  intros [= <-]. split.
  - assert (Z.to_nat i < length a)%nat by (apply nth_error_Some; congruence).
    lia.
  - apply nth_error_nth. assumption.
Qed.

Lemma load_inside (a : list R) (i : Z) :
  (0 <= i < Z.of_nat (length a))%Z -> load a i = Ok (nth (Z.to_nat i) a 0).
Proof.
  intros H. unfold load. destruct (Z.ltb_spec i 0); [lia|].
  destruct (nth_error a (Z.to_nat i)) eqn:E.
  - f_equal. symmetry. apply nth_error_nth. assumption.
  - apply nth_error_None in E. lia.
Qed.

Lemma load_outside (a : list R) (i : Z) :
  (i < 0 \/ Z.of_nat (length a) <= i)%Z -> load a i = OutOfRange i.
Proof.
  intros H. unfold load. destruct (Z.ltb_spec i 0); [reflexivity|].
  destruct (nth_error a (Z.to_nat i)) eqn:E; [|reflexivity].
  assert (Z.to_nat i < length a)%nat by (apply nth_error_Some; congruence).
  lia.
Qed.

Lemma load_not_OutOfFuel (a : list R) (i : Z) : load a i <> OutOfFuel.
Proof.
  unfold load. destruct (i <? 0)%Z; [discriminate|].
  destruct (nth_error a (Z.to_nat i)); discriminate.
Qed.

(** Inversion of a successful run, one bind at a time. *)
Ltac bind_inv H :=
  repeat match type of H with
  | bind ?c _ = Ok _ =>
      let E := fresh "E" in
      destruct c eqn:E; cbn [bind] in H; [|discriminate H|discriminate H]
  end.

(** ** The closest-point search *)

Section SearchFacts.
Variable N : Z.
Variables X_loc Y_loc : list R.
Variables X_est Y_est : R.

Local Abbreviation loop := (search_loop N X_loc Y_loc X_est Y_est).
Local Abbreviation search := (closest_point_search N X_loc Y_loc X_est Y_est).
Local Abbreviation dist := (sq_dist X_loc Y_loc X_est Y_est).

(** The loop ends: the fuel given by [closest_point_search] is never used
    up. *)
Lemma search_loop_fuel (fuel : nat) (idx : Z) :
  (1 <= Z.of_nat fuel)%Z -> (N - idx + 1 <= Z.of_nat fuel)%Z ->
  loop fuel idx <> OutOfFuel.
Proof.
  revert idx. induction fuel as [|fuel IH]; intros idx H1 H2; [lia|].
  cbn [search_loop].
  destruct (load X_loc idx) eqn:E1; cbn [bind];
    [|discriminate|exfalso; exact (load_not_OutOfFuel _ _ E1)].
  destruct (load Y_loc idx) eqn:E2; cbn [bind];
    [|discriminate|exfalso; exact (load_not_OutOfFuel _ _ E2)].
  destruct (load X_loc (idx + 1)) eqn:E3; cbn [bind];
    [|discriminate|exfalso; exact (load_not_OutOfFuel _ _ E3)].
  destruct (load Y_loc (idx + 1)) eqn:E4; cbn [bind];
    [|discriminate|exfalso; exact (load_not_OutOfFuel _ _ E4)].
  destruct (Rgeb _ _); cbn [andb]; [|discriminate].
  destruct (Z.leb_spec idx (N - 1)); [|discriminate].
  apply IH; lia.
Qed.

Lemma search_never_out_of_fuel : search <> OutOfFuel.
Proof. apply search_loop_fuel; lia. Qed.

(** What a search that returns has established. *)
Lemma search_loop_Ok (fuel : nat) (idx r : Z) :
  loop fuel idx = Ok r ->
  (idx <= r)%Z /\
  (0 <= r)%Z /\
  (r + 1 < Z.of_nat (length X_loc))%Z /\
  (r + 1 < Z.of_nat (length Y_loc))%Z /\
  (dist r < dist (r + 1) \/ (N - 1 < r)%Z) /\
  (forall i, (idx <= i < r)%Z -> dist i >= dist (i + 1) /\ (i <= N - 1)%Z).
Proof.
  revert idx. induction fuel as [|fuel IH]; intros idx H; [discriminate|].
  cbn [search_loop] in H. bind_inv H.
  apply load_Ok_inv in E, E0, E1, E2.
  destruct E as [Hi Ei], E0 as [Hj Ej], E1 as [Hk Ek], E2 as [Hl El].
  subst a a0 a1 a2.
  fold (dist idx) in H. fold (dist (idx + 1)) in H.
  destruct (Rgeb_spec (dist idx) (dist (idx + 1))) as [Hge|Hlt];
    cbn [andb] in H.
  - destruct (Z.leb_spec idx (N - 1)) as [Hb|Hb].
    + apply IH in H. destruct H as (H1 & H2 & H3 & H4 & H5 & H6).
      repeat split; try lia; try assumption.
      * destruct (Z.eq_dec i idx) as [->|Hne]; [assumption|].
        apply H6. lia.
      * destruct (Z.eq_dec i idx) as [->|Hne]; [assumption|].
        apply H6. lia.
    + injection H as <-. repeat split; try lia.
  - injection H as <-. repeat split; try lia.
    left. lra.
Qed.

(** On a window that holds [N] waypoints, a search that returns does so
    with an index of [[1, N-2]]. *)
Lemma search_Ok_range (r : Z) :
  Z.of_nat (length X_loc) = N ->
  search = Ok r -> (1 <= r <= N - 2)%Z.
Proof.
  intros HX H. apply search_loop_Ok in H. lia.
Qed.

(** When no waypoint of the window stops the search, it reads [X_loc[N]]. *)
Lemma search_loop_overrun (fuel : nat) (idx : Z) :
  Z.of_nat (length X_loc) = N -> Z.of_nat (length Y_loc) = N ->
  (1 <= idx <= N)%Z ->
  (1 <= Z.of_nat fuel)%Z -> (N - idx <= Z.of_nat fuel)%Z ->
  (forall i, (idx <= i <= N - 2)%Z -> dist i >= dist (i + 1)) ->
  loop fuel idx = OutOfRange N.
Proof.
  intros HX HY. revert idx.
  induction fuel as [|fuel IH]; intros idx Hidx H1 H2 Hfar; [lia|].
  cbn [search_loop].
  destruct (Z.eq_dec idx N) as [->|HneN].
  { rewrite (load_outside X_loc N) by lia. reflexivity. }
  rewrite (load_inside X_loc idx), (load_inside Y_loc idx) by lia.
  cbn [bind].
  destruct (Z.eq_dec idx (N - 1)) as [->|Hne].
  - replace (N - 1 + 1)%Z with N by lia.
    rewrite (load_outside X_loc N) by lia. reflexivity.
  - rewrite (load_inside X_loc (idx + 1)), (load_inside Y_loc (idx + 1))
      by lia.
    cbn [bind]. fold (dist idx). fold (dist (idx + 1)).
    destruct (Rgeb_spec (dist idx) (dist (idx + 1))) as [Hge|Hlt].
    + destruct (Z.leb_spec idx (N - 1)); [|lia]. cbn [andb].
      apply IH; try lia. intros i Hi. apply Hfar. lia.
    + exfalso. apply Hlt. apply Hfar. lia.
Qed.

Lemma search_overrun :
  Z.of_nat (length X_loc) = N -> Z.of_nat (length Y_loc) = N ->
  (1 <= N)%Z ->
  (forall i, (1 <= i <= N - 2)%Z -> dist i >= dist (i + 1)) ->
  search = OutOfRange N.
Proof.
  intros HX HY HN Hfar. apply search_loop_overrun; try assumption; lia.
Qed.
End SearchFacts.

(** ** Unpacking *)

Lemma unpack_loop_length (traj_loc : list R) (size : Z) (n : nat) :
  forall (i : Z) (X Y Psi X' Y' Psi' : list R),
  unpack_loop traj_loc size n i X Y Psi = Ok (X', Y', Psi') ->
  length X' = (length X + n)%nat /\
  length Y' = (length Y + n)%nat /\
  length Psi' = (length Psi + n)%nat.
Proof.
  induction n as [|n IH]; intros i X Y Psi X' Y' Psi' H.
  - injection H as <- <- <-. lia.
  - cbn [unpack_loop] in H. bind_inv H.
    apply IH in H. rewrite !length_app in H. cbn [length] in H. lia.
Qed.

Lemma unpack_length (size : Z) (traj_loc X Y Psi : list R) :
  unpack size traj_loc = Ok (X, Y, Psi) ->
  length X = Z.to_nat size /\
  length Y = Z.to_nat size /\
  length Psi = Z.to_nat size.
Proof.
  intros H. apply unpack_loop_length in H. cbn [length] in H. lia.
Qed.

(** With a window of two, the arrays are the first six doubles of the buffer,
    two by two, whatever the length and the layout of the buffer. *)
Lemma unpack_two (traj_loc X Y Psi : list R) :
  unpack 2 traj_loc = Ok (X, Y, Psi) ->
  exists t0 t1 t2 t3 t4 t5 rest,
    traj_loc = t0 :: t1 :: t2 :: t3 :: t4 :: t5 :: rest /\
    X = [t0; t1] /\ Y = [t2; t3] /\ Psi = [t4; t5].
Proof.
  intros H.
  destruct traj_loc as [|t0 [|t1 [|t2 [|t3 [|t4 [|t5 rest]]]]]];
    try discriminate H.
  injection H as <- <- <-.
  exists t0, t1, t2, t3, t4, t5, rest. repeat split.
Qed.

(** ** The locals of a completed call of [control] *)

Lemma control_Ok_inv (N : Z) (X_loc Y_loc Psi_loc : list R)
    (X_est Y_est Psi_est v lr lf lambda k1 k2 e1_max Ad_t Bd_t C_t D_t : R)
    (st st' : statics) (f : frame) :
  control N X_loc Y_loc Psi_loc X_est Y_est Psi_est v lr lf lambda
    k1 k2 e1_max Ad_t Bd_t C_t D_t st = Ok (f, st') ->
  exists idx X_i Y_i Psi_n Psi_i X_p Y_p Psi_h X_n Y_n,
    closest_point_search N X_loc Y_loc X_est Y_est = Ok idx /\
    load X_loc idx = Ok X_i /\ load Y_loc idx = Ok Y_i /\
    load Psi_loc (idx + 1) = Ok Psi_n /\ load Psi_loc idx = Ok Psi_i /\
    load X_loc (idx - 1) = Ok X_p /\ load Y_loc (idx - 1) = Ok Y_p /\
    load X_loc (idx + 1) = Ok X_n /\ load Y_loc (idx + 1) = Ok Y_n /\
    load Psi_loc (f_closestpoint_heading_idx f) = Ok Psi_h /\
    f_closestpoint_idx f = idx /\
    f_projected_dist f =
      Rabs (sqrt ((X_p - X_est) ^ 2 + (Y_p - Y_est) ^ 2)
            * cos (atan ((Y_p - Y_est) / (X_p - X_est)) - Psi_i)) /\
    f_compared_dist f = sqrt ((X_i - X_p) ^ 2 + (Y_i - Y_p) ^ 2) /\
    f_closestpoint_heading_idx f =
      select_heading_idx idx (f_projected_dist f) (f_compared_dist f) /\
    f_dx f = X_est - X_i /\ f_dy f = Y_est - Y_i /\
    f_D_psiref f = limit_D_psiref (Psi_n - Psi_i) /\
    f_e1 f = f_dy f * cos Psi_h - f_dx f * sin Psi_h /\
    f_e2 f = wrap_angle (Psi_est - Psi_h) /\
    f_dpsiref f =
      f_D_psiref f / (sqrt ((X_n - X_i) ^ 2 + (Y_n - Y_i) ^ 2) / v) /\
    f_delta_ref_error f = steering_error k1 k2 e1_max (f_e1 f) (f_e2 f) /\
    (f_delta_ref_psi f, st') = filter_step Ad_t Bd_t C_t D_t (f_dpsiref f) st /\
    f_delta_ref_sum f = f_delta_ref_psi f + f_delta_ref_error f /\
    f_delta_ref f = limit_delta_ref (f_delta_ref_sum f) /\
    f_roll_ref f = roll_transform lr lf lambda v (f_delta_ref f) /\
    f_closestpoint_idx_out f = (idx - 1)%Z.
Proof.
  intros H. unfold control in H. bind_inv H.
  unfold filter_step in H. injection H as <- <-.
  exists a, a0, a1, a2, a3, a4, a5, a6, a7, a8. cbn.
  repeat split; assumption.
Qed.

(** A call of [control] completes as soon as its search does, on a window
    whose three arrays have one length. *)
Lemma control_completes (N : Z) (X_loc Y_loc Psi_loc : list R)
    (X_est Y_est Psi_est v lr lf lambda k1 k2 e1_max Ad_t Bd_t C_t D_t : R)
    (st : statics) (idx : Z) :
  length Y_loc = length X_loc -> length Psi_loc = length X_loc ->
  closest_point_search N X_loc Y_loc X_est Y_est = Ok idx ->
  exists f st',
    control N X_loc Y_loc Psi_loc X_est Y_est Psi_est v lr lf lambda
      k1 k2 e1_max Ad_t Bd_t C_t D_t st = Ok (f, st').
Proof.
  intros HY HPsi Hs.
  destruct (search_loop_Ok _ _ _ _ _ _ _ _ Hs) as (H1 & _ & H2 & _).
  unfold control. rewrite Hs. cbn [bind].
  rewrite (load_inside X_loc idx), (load_inside Y_loc idx) by lia.
  cbn [bind].
  rewrite (load_inside Psi_loc (idx + 1)), (load_inside Psi_loc idx) by lia.
  cbn [bind].
  rewrite (load_inside X_loc (idx - 1)), (load_inside Y_loc (idx - 1)) by lia.
  cbn [bind].
  match goal with
  | |- context [select_heading_idx idx ?p ?c] =>
      assert (Hh : (0 <= select_heading_idx idx p c
                    < Z.of_nat (length Psi_loc))%Z)
        by (unfold select_heading_idx; destruct (Rgeb p c); lia);
      rewrite (load_inside Psi_loc (select_heading_idx idx p c) Hh)
  end.
  cbn [bind].
  rewrite (load_inside X_loc (idx + 1)), (load_inside Y_loc (idx + 1)) by lia.
  cbn [bind]. unfold filter_step. eexists. eexists. reflexivity.
Qed.

(** ** The scenario *)

Lemma scenario_search :
  closest_point_search 5 scenario_X scenario_Y (1 / 2) 0 = Ok 1%Z.
Proof.
  unfold closest_point_search. change (S (Z.to_nat 5)) with 6%nat.
  cbn [search_loop].
  change (load scenario_X 1) with (Ok 1).
  change (load scenario_Y 1) with (Ok 0).
  change (load scenario_X (1 + 1)) with (Ok 2).
  change (load scenario_Y (1 + 1)) with (Ok 0).
  cbn [bind].
  destruct (Rgeb_spec ((1 - 1 / 2) ^ 2 + (0 - 0) ^ 2)
                      ((2 - 1 / 2) ^ 2 + (0 - 0) ^ 2)) as [H|H].
  - exfalso. lra.
  - reflexivity.
Qed.

Lemma scenario_run :
  exists f st',
    scenario_control statics_init = Ok (f, st') /\
    f_closestpoint_idx f = 1%Z /\
    f_closestpoint_heading_idx f = 1%Z /\
    f_e1 f = 0 /\ f_e2 f = 0 /\ f_dpsiref f = 0.
Proof.
  destruct (control_completes 5 scenario_X scenario_Y scenario_Psi
              (1 / 2) 0 0 1 (1 / 2) (1 / 2) 1 1 1 1 0 0 0 1 statics_init 1
              eq_refl eq_refl scenario_search) as (f & st' & Hrun).
  exists f, st'. split; [exact Hrun|].
  destruct (control_Ok_inv _ _ _ _ _ _ _ _ _ _ _ _ _ _ _ _ _ _ _ _ _ Hrun)
    as (idx & X_i & Y_i & Psi_n & Psi_i & X_p & Y_p & Psi_h & X_n & Y_n &
        Hs & HXi & HYi & HPn & HPi & HXp & HYp & HXn & HYn & HPh &
        Hidx & Hproj & Hcomp & Hh & Hdx & Hdy & HD & He1 & He2 & Hdpsi & _).
  rewrite scenario_search in Hs. injection Hs as <-.
  change (load scenario_X 1) with (Ok 1) in HXi. injection HXi as <-.
  change (load scenario_Y 1) with (Ok 0) in HYi. injection HYi as <-.
  change (load scenario_Psi (1 + 1)) with (Ok 0) in HPn. injection HPn as <-.
  change (load scenario_Psi 1) with (Ok 0) in HPi. injection HPi as <-.
  change (load scenario_X (1 - 1)) with (Ok 0) in HXp. injection HXp as <-.
  change (load scenario_Y (1 - 1)) with (Ok 0) in HYp. injection HYp as <-.
  change (load scenario_X (1 + 1)) with (Ok 2) in HXn. injection HXn as <-.
  change (load scenario_Y (1 + 1)) with (Ok 0) in HYn. injection HYn as <-.
  assert (Hp : f_projected_dist f = 1 / 2).
  { rewrite Hproj.
    replace ((0 - 1 / 2) ^ 2 + (0 - 0) ^ 2) with ((1 / 2) ^ 2) by lra.
    rewrite sqrt_pow2 by lra.
    replace ((0 - 0) / (0 - 1 / 2)) with 0 by lra.
    rewrite atan_0. replace (0 - 0) with 0 by lra. rewrite cos_0.
    rewrite Rabs_pos_eq; lra. }
  assert (Hc : f_compared_dist f = 1).
  { rewrite Hcomp. replace ((1 - 0) ^ 2 + (0 - 0) ^ 2) with 1 by lra.
    apply sqrt_1. }
  assert (Hh1 : f_closestpoint_heading_idx f = 1%Z).
  { rewrite Hh, Hp, Hc. unfold select_heading_idx.
    destruct (Rgeb_spec (1 / 2) 1); [lra | reflexivity]. }
  rewrite Hh1 in HPh.
  change (load scenario_Psi 1) with (Ok 0) in HPh. injection HPh as <-.
  repeat split.
  - exact Hidx.
  - exact Hh1.
  - rewrite He1, Hdx, Hdy, sin_0, cos_0. lra.
  - rewrite He2. replace (0 - 0) with 0 by lra.
    apply wrap_angle_fixes. pose proof PI_RGT_0. lra.
  - rewrite Hdpsi, HD. rewrite limit_D_psiref_inside.
    + unfold Rdiv at 1. lra.
    + pose proof PI_RGT_0. lra.
Qed.

(** ** [sign], [min] and the saturations *)

Lemma sign_pos (e : R) : e > 0 -> sign e = 1.
Proof. intros H. unfold sign. destruct (Rgtb_spec e 0); [reflexivity | lra]. Qed.

Lemma sign_neg (e : R) : e < 0 -> sign e = -1.
Proof.
  intros H. unfold sign. destruct (Rgtb_spec e 0); [lra|].
  destruct (Rltb_spec e 0); [reflexivity | lra].
Qed.

Lemma sign_zero : sign 0 = 0.
Proof.
  unfold sign. destruct (Rgtb_spec 0 0); [lra|].
  destruct (Rltb_spec 0 0); [lra | reflexivity].
Qed.

Lemma sign_cases (e : R) :
  (e > 0 /\ sign e = 1) \/ (e < 0 /\ sign e = -1) \/ (e = 0 /\ sign e = 0).
Proof.
  destruct (Rtotal_order e 0) as [H|[H|H]].
  - right. left. split; [assumption | apply sign_neg; assumption].
  - right. right. subst e. split; [reflexivity | apply sign_zero].
  - left. split; [assumption | apply sign_pos; assumption].
Qed.

Lemma min_Rmin (a b : R) : min a b = Rmin a b.
Proof.
  unfold min, Rmin. destruct (Rltb_spec a b); destruct (Rle_dec a b); lra.
Qed.

Lemma limit_delta_ref_range (d : R) :
  - (PI / 4) <= limit_delta_ref d <= PI / 4.
Proof.
  pose proof PI_RGT_0 as Hpi. unfold limit_delta_ref, M_PI.
  destruct (Rgeb_spec d (PI / 4)).
  - destruct (Rleb_spec (PI / 4) (- PI / 4)); lra.
  - destruct (Rleb_spec d (- PI / 4)); lra.
Qed.

Lemma limit_delta_ref_inside (d : R) :
  - (PI / 4) <= d <= PI / 4 -> limit_delta_ref d = d.
Proof.
  intros H. pose proof PI_RGT_0 as Hpi. unfold limit_delta_ref, M_PI.
  destruct (Rgeb_spec d (PI / 4)).
  - destruct (Rleb_spec (PI / 4) (- PI / 4)); lra.
  - destruct (Rleb_spec d (- PI / 4)); lra.
Qed.

Lemma limit_delta_ref_above (d : R) :
  d > PI / 4 -> limit_delta_ref d = PI / 4.
Proof.
  intros H. pose proof PI_RGT_0 as Hpi. unfold limit_delta_ref, M_PI.
  destruct (Rgeb_spec d (PI / 4)); [|lra].
  destruct (Rleb_spec (PI / 4) (- PI / 4)); lra.
Qed.

Lemma limit_delta_ref_below (d : R) :
  d < - (PI / 4) -> limit_delta_ref d = - (PI / 4).
Proof.
  intros H. pose proof PI_RGT_0 as Hpi. unfold limit_delta_ref, M_PI.
  destruct (Rgeb_spec d (PI / 4)); [lra|].
  destruct (Rleb_spec d (- PI / 4)); lra.
Qed.

Lemma roll_transform_zero (lr lf lambda v : R) :
  roll_transform lr lf lambda v 0 = 0.
Proof.
  unfold roll_transform. rewrite Rmult_0_l, tan_0.
  unfold Rdiv. rewrite !Rmult_0_l, atan_0. lra.
Qed.

(** ** A completed call needs a window of three waypoints at least *)

Lemma control_Ok_window (N : Z) (X_loc Y_loc Psi_loc : list R)
    (X_est Y_est Psi_est v lr lf lambda k1 k2 e1_max Ad_t Bd_t C_t D_t : R)
    (st : statics) (r : frame * statics) :
  control N X_loc Y_loc Psi_loc X_est Y_est Psi_est v lr lf lambda
    k1 k2 e1_max Ad_t Bd_t C_t D_t st = Ok r ->
  (3 <= length X_loc)%nat.
Proof.
  intros H. unfold control in H.
  destruct (closest_point_search N X_loc Y_loc X_est Y_est) as [idx| |] eqn:Hs;
    cbn [bind] in H; try discriminate H.
  apply search_loop_Ok in Hs. lia.
Qed.

(** On a target whose pointers have eight bytes or fewer, no call of
    [trajectory_controller] completes: each one reads outside its arrays. *)
Lemma completed_call_needs_wide_pointer (p : platform) (traj_loc : list R)
    (X_est Y_est Psi_est v : R) (bike_params traj_params : list R)
    (Ad_t Bd_t C_t D_t : R) (st : statics) (r : outputs * statics) :
  trajectory_controller p traj_loc X_est Y_est Psi_est v
    bike_params traj_params Ad_t Bd_t C_t D_t st = Ok r ->
  (9 <= sizeof_double_ptr p)%Z.
Proof.
  intros H. unfold trajectory_controller in H. bind_inv H.
  unfold trajectory_controller_frame in E. bind_inv E.
  destruct a6 as [[X Y] Psi].
  apply control_Ok_window in E. apply unpack_length in E6.
  destruct E6 as (HX & _). unfold size_traj_loc_of in HX.
  assert (3 <= sizeof_double_ptr p / 3)%Z by lia.
  destruct (Z.lt_ge_cases (sizeof_double_ptr p) 9) as [Hlt|Hge]; [|assumption].
  assert (sizeof_double_ptr p / 3 < 3)%Z
    by (apply Z.div_lt_upper_bound; lia).
  lia.
Qed.

(** * The claims *)

(** C1.  The search does not keep its reads inside the window.  On the window
    of four waypoints [(0,0) (1,0) (2,0) (3,0)] with the vehicle at [(10,0)],
    every waypoint is at least as far as the next, and at index 3 the loop
    condition reads [X_loc[4]] before it compares the index with
    [size_traj_loc-1]: the run leaves the array at index [4 = N].  On an LP64
    target the window has two waypoints, and a call on the same trajectory
    leaves [X_loc] at index 2 in the first evaluation of the condition. *)
Theorem C1_search_reads_past_window :
  closest_point_search 4 [0; 1; 2; 3] [0; 0; 0; 0] 10 0 = OutOfRange 4 /\
  trajectory_controller LP64 [0; 1; 2; 3; 0; 0; 0; 0; 0; 0; 0; 0] 10 0 0 1
    [1 / 2; 1 / 2; 1] [1; 1; 1] 0 0 0 1 statics_init = OutOfRange 2.
Proof.
  split.
  - apply search_overrun; try reflexivity; try lia.
    intros i Hi. assert (Hc : i = 1%Z \/ i = 2%Z) by lia.
    destruct Hc as [-> | ->].
    + change ((1 - 10) ^ 2 + (0 - 0) ^ 2 >= (2 - 10) ^ 2 + (0 - 0) ^ 2). lra.
    + change ((2 - 10) ^ 2 + (0 - 0) ^ 2 >= (3 - 10) ^ 2 + (0 - 0) ^ 2). lra.
  - unfold trajectory_controller, trajectory_controller_frame.
    change (load [1 / 2; 1 / 2; 1] 0) with (Ok (1 / 2)).
    change (load [1 / 2; 1 / 2; 1] 1) with (Ok (1 / 2)).
    change (load [1 / 2; 1 / 2; 1] 2) with (Ok 1).
    change (load [1; 1; 1] 0) with (Ok 1).
    change (load [1; 1; 1] 1) with (Ok 1).
    change (load [1; 1; 1] 2) with (Ok 1).
    change (unpack (size_traj_loc_of LP64)
              [0; 1; 2; 3; 0; 0; 0; 0; 0; 0; 0; 0])
      with (Ok ([0; 1], [2; 3], [0; 0])).
    cbn [bind]. change (size_traj_loc_of LP64) with 2%Z.
    unfold control.
    rewrite (search_overrun 2 [0; 1] [2; 3] 10 0);
      [reflexivity | reflexivity | reflexivity | lia | intros i Hi; lia].
Qed.

(** C2.  The window the controller works on has [sizeof(double* ) / 3]
    waypoints, whatever the length of the caller's buffer: whenever the
    unpacking loop completes, the three arrays have that length, and the rest
    of the call is [control] on that window.  With pointers of eight bytes the
    arrays are the first six doubles of the buffer taken two by two, and with
    pointers of at most eight bytes the window is shorter than four
    waypoints. *)
Theorem C2_window_size_is_pointer_size (p : platform)
    (traj_loc X_loc Y_loc Psi_loc : list R) :
  unpack (size_traj_loc_of p) traj_loc = Ok (X_loc, Y_loc, Psi_loc) ->
  (length X_loc = Z.to_nat (sizeof_double_ptr p / 3) /\
   length Y_loc = Z.to_nat (sizeof_double_ptr p / 3) /\
   length Psi_loc = Z.to_nat (sizeof_double_ptr p / 3)) /\
  (forall X_est Y_est Psi_est v lr lf lambda k1 k2 e1_max
          Ad_t Bd_t C_t D_t st,
     trajectory_controller_frame p traj_loc X_est Y_est Psi_est v
       [lr; lf; lambda] [k1; k2; e1_max] Ad_t Bd_t C_t D_t st =
     control (sizeof_double_ptr p / 3) X_loc Y_loc Psi_loc
       X_est Y_est Psi_est v lr lf lambda k1 k2 e1_max
       Ad_t Bd_t C_t D_t st) /\
  (sizeof_double_ptr p = 8%Z ->
   exists t0 t1 t2 t3 t4 t5 rest,
     traj_loc = t0 :: t1 :: t2 :: t3 :: t4 :: t5 :: rest /\
     X_loc = [t0; t1] /\ Y_loc = [t2; t3] /\ Psi_loc = [t4; t5]) /\
  ((sizeof_double_ptr p <= 8)%Z -> (length X_loc < 4)%nat).
Proof.
  intros H. pose proof (unpack_length _ _ _ _ _ H) as HL.
  unfold size_traj_loc_of in HL. split; [exact HL|]. split; [|split].
  - intros. unfold trajectory_controller_frame.
    change (load [lr; lf; lambda] 0) with (Ok lr).
    change (load [lr; lf; lambda] 1) with (Ok lf).
    change (load [lr; lf; lambda] 2) with (Ok lambda).
    change (load [k1; k2; e1_max] 0) with (Ok k1).
    change (load [k1; k2; e1_max] 1) with (Ok k2).
    change (load [k1; k2; e1_max] 2) with (Ok e1_max).
    cbn [bind]. rewrite H. reflexivity.
  - intros H8. apply unpack_two. unfold size_traj_loc_of in H.
    rewrite H8 in H. exact H.
  - intros Hle. destruct HL as (HX & _). rewrite HX.
    assert (sizeof_double_ptr p / 3 < 3)%Z
      by (apply Z.div_lt_upper_bound; lia).
    lia.
Qed.

Lemma C2_window_size_is_pointer_size_witness :
  unpack (size_traj_loc_of LP64) [0; 1; 2; 3; 0; 0; 0; 0; 0; 0; 0; 0] =
    Ok ([0; 1], [2; 3], [0; 0]) /\
  (length [0; 1] < 4)%nat.
Proof.
  split; [reflexivity|].
  apply (C2_window_size_is_pointer_size LP64
           [0; 1; 2; 3; 0; 0; 0; 0; 0; 0; 0; 0] [0; 1] [2; 3] [0; 0] eq_refl).
  cbn. lia.
Defined.

(** C3, as the specification states it, fails.  With consecutive headings
    [0] and [PI] the difference [PI] is first reduced to [-PI] and then, being
    [<= -PI], reduced again to [PI]: two corrections, where the single step
    gives [-PI].  With consecutive headings [0] and [-5*PI/2] the result is
    [3*PI/2], outside [[-PI, PI]]. *)
Lemma C3_single_correction_counterexample :
  (limit_D_psiref (PI - 0) = PI /\
   D_psiref_single_correction (PI - 0) = - PI /\
   limit_D_psiref (PI - 0) <> D_psiref_single_correction (PI - 0)) /\
  (limit_D_psiref (- (5 / 2) * PI - 0) = 3 / 2 * PI /\
   ~ (- PI <= limit_D_psiref (- (5 / 2) * PI - 0) <= PI)).
Proof.
  pose proof PI_RGT_0 as Hpi.
  assert (H1 : limit_D_psiref (PI - 0) = PI).
  { replace (PI - 0) with PI by lra. apply limit_D_psiref_PI. }
  assert (H2 : D_psiref_single_correction (PI - 0) = - PI).
  { unfold D_psiref_single_correction, M_PI.
    destruct (Rgeb_spec (PI - 0) PI); lra. }
  assert (H3 : limit_D_psiref (- (5 / 2) * PI - 0) = 3 / 2 * PI).
  { rewrite limit_D_psiref_below; lra. }
  repeat split; try assumption.
  - rewrite H1, H2. lra.
  - rewrite H3. lra.
Qed.

(** C3, amended.  [D_psiref] is reduced by two conditional calls of the
    floor-modulo [mod] in sequence, [mod(D, -2*PI)] when [D >= PI] and then
    [mod(D, 2*PI)] when the value is [<= -PI].  For [PI < D < 2*PI] the
    result is [D - 2*PI], for [-2*PI <= D <= -PI] it is [D + 2*PI], for
    [-PI < D < PI] it is [D], and at [D = PI] both reductions apply and the
    result is [PI].  For every [D >= -2*PI] the result lies in [(-PI, PI]]. *)
Theorem C3_limit_D_psiref_amended (Psi_next Psi_cur : R) :
  let D := Psi_next - Psi_cur in
  limit_D_psiref D =
    (let D1 := if Rge_dec D PI then mod_ D (-2 * PI) else D in
     if Rle_dec D1 (- PI) then mod_ D1 (2 * PI) else D1) /\
  (PI < D < 2 * PI -> limit_D_psiref D = D - 2 * PI) /\
  (- (2 * PI) <= D <= - PI -> limit_D_psiref D = D + 2 * PI) /\
  (- PI < D < PI -> limit_D_psiref D = D) /\
  (D = PI -> limit_D_psiref D = PI) /\
  (- (2 * PI) <= D -> - PI < limit_D_psiref D <= PI).
Proof.
  intros D. split; [|split; [|split; [|split; [|split]]]].
  - unfold limit_D_psiref, Rgeb, Rleb, M_PI. cbv zeta.
    destruct (Rge_dec D PI); destruct (Rle_dec _ _); reflexivity.
  - apply limit_D_psiref_high.
  - apply limit_D_psiref_low.
  - apply limit_D_psiref_inside.
  - intros H. rewrite H. apply limit_D_psiref_PI.
  - apply limit_D_psiref_range.
Qed.

Lemma C3_limit_D_psiref_amended_witness :
  PI < 3 / 2 * PI - 0 < 2 * PI /\
  limit_D_psiref (3 / 2 * PI - 0) = 3 / 2 * PI - 0 - 2 * PI.
Proof.
  assert (H : PI < 3 / 2 * PI - 0 < 2 * PI)
    by (pose proof PI_RGT_0; split; lra).
  split; [exact H|].
  exact (proj1 (proj2 (C3_limit_D_psiref_amended (3 / 2 * PI) 0)) H).
Defined.

(** C4, as the specification states it, fails: [wrap_angle] maps [-PI] to
    [-PI], which is not in [(-PI, PI]]. *)
Lemma C4_wrap_angle_counterexample :
  wrap_angle (- PI) = - PI /\ ~ (- PI < wrap_angle (- PI) <= PI).
Proof.
  split; [apply wrap_angle_minus_PI|].
  rewrite wrap_angle_minus_PI. lra.
Qed.

(** C4, amended.  For every angle [a], [wrap_angle a] lies in [[-PI, PI)],
    and [wrap_angle] has period [2*PI]: [wrap_angle (a + 2*PI*k)] equals
    [wrap_angle a] for every integer [k]. *)
Theorem C4_wrap_angle_amended (a : R) (k : Z) :
  - PI <= wrap_angle a < PI /\
  wrap_angle (a + 2 * PI * IZR k) = wrap_angle a.
Proof.
  split; [apply wrap_angle_range | apply wrap_angle_periodic].
Qed.

(** C5.  A completed call makes one step of the filter: [delta_ref_psi] and
    the new [x] are both computed from the [x] the call found, which is [0]
    before the first call, and [x] is assigned once, with
    [Ad*x + Bd*dpsiref]. *)
Theorem C5_filter_is_one_state_space_step (N : Z)
    (X_loc Y_loc Psi_loc : list R)
    (X_est Y_est Psi_est v lr lf lambda k1 k2 e1_max Ad_t Bd_t C_t D_t : R)
    (st st' : statics) (f : frame) :
  control N X_loc Y_loc Psi_loc X_est Y_est Psi_est v lr lf lambda
    k1 k2 e1_max Ad_t Bd_t C_t D_t st = Ok (f, st') ->
  static_x statics_init = 0 /\
  f_delta_ref_psi f = C_t * static_x st + D_t * f_dpsiref f /\
  static_x st' = Ad_t * static_x st + Bd_t * f_dpsiref f /\
  x_stores st' = S (x_stores st).
Proof.
  intros H. apply control_Ok_inv in H.
  destruct H as (idx & X_i & Y_i & Psi_n & Psi_i & X_p & Y_p & Psi_h & X_n
                 & Y_n & H).
  assert (Hf : (f_delta_ref_psi f, st')
               = filter_step Ad_t Bd_t C_t D_t (f_dpsiref f) st) by apply H.
  unfold filter_step in Hf. injection Hf as Hpsi Hst. subst st'.
  repeat split; assumption.
Qed.

Lemma C5_filter_is_one_state_space_step_witness :
  exists f st',
    scenario_control statics_init = Ok (f, st') /\
    f_delta_ref_psi f = 0 * static_x statics_init + 1 * f_dpsiref f /\
    static_x st' = 0 * static_x statics_init + 0 * f_dpsiref f /\
    x_stores st' = 1%nat.
Proof.
  destruct scenario_run as (f & st' & Hrun & _).
  exists f, st'. split; [exact Hrun|].
  exact (proj2 (C5_filter_is_one_state_space_step _ _ _ _ _ _ _ _ _ _ _ _ _ _
                  _ _ _ _ _ _ _ Hrun)).
Defined.

Lemma west_search :
  closest_point_search 5 west_X west_Y (- (7 / 5)) 0 = Ok 1%Z.
Proof.
  unfold closest_point_search. change (S (Z.to_nat 5)) with 6%nat.
  cbn [search_loop].
  change (load west_X 1) with (Ok (-1)).
  change (load west_Y 1) with (Ok 0).
  change (load west_X (1 + 1)) with (Ok (-2)).
  change (load west_Y (1 + 1)) with (Ok 0).
  cbn [bind].
  destruct (Rgeb_spec ((-1 - - (7 / 5)) ^ 2 + (0 - 0) ^ 2)
                      ((-2 - - (7 / 5)) ^ 2 + (0 - 0) ^ 2)) as [H|H].
  - exfalso. lra.
  - reflexivity.
Qed.

Lemma west_signed_projection :
  sqrt ((0 - - (7 / 5)) ^ 2 + (0 - 0) ^ 2)
  * cos (atan ((0 - 0) / (0 - - (7 / 5))) - PI) = - (7 / 5).
Proof.
  replace ((0 - - (7 / 5)) ^ 2 + (0 - 0) ^ 2) with ((7 / 5) ^ 2) by lra.
  rewrite sqrt_pow2 by lra.
  replace ((0 - 0) / (0 - - (7 / 5))) with 0 by (unfold Rdiv; ring).
  rewrite atan_0. replace (0 - PI) with (- PI) by ring.
  rewrite cos_neg, cos_PI. lra.
Qed.

Lemma west_segment : sqrt ((-1 - 0) ^ 2 + (0 - 0) ^ 2) = 1.
Proof.
  replace ((-1 - 0) ^ 2 + (0 - 0) ^ 2) with 1 by lra. apply sqrt_1.
Qed.

(** C6, as the specification states it, fails.  On the window heading west,
    with the vehicle at [(-7/5, 0)], the search returns [idx = 1]; the
    distance [7/5] from waypoint 0, multiplied by
    [cos(alpha_star - Psi[1]) = cos(0 - PI) = -1], is [-7/5], which is not at
    least the segment length [1]; yet the heading index is [idx + 1 = 2],
    because the code compares the absolute value [7/5]. *)
Lemma C6_signed_projection_counterexample :
  exists f st',
    west_control statics_init = Ok (f, st') /\
    f_closestpoint_idx f = 1%Z /\
    load west_X (1 - 1) = Ok 0 /\ load west_Y (1 - 1) = Ok 0 /\
    load west_X 1 = Ok (-1) /\ load west_Y 1 = Ok 0 /\
    load west_Psi 1 = Ok PI /\
    f_closestpoint_heading_idx f = (1 + 1)%Z /\
    ~ (sqrt ((0 - - (7 / 5)) ^ 2 + (0 - 0) ^ 2)
       * cos (atan ((0 - 0) / (0 - - (7 / 5))) - PI)
       >= sqrt ((-1 - 0) ^ 2 + (0 - 0) ^ 2)).
Proof.
  destruct (control_completes 5 west_X west_Y west_Psi
              (- (7 / 5)) 0 PI 1 (1 / 2) (1 / 2) 1 1 1 1 0 0 0 1
              statics_init 1 eq_refl eq_refl west_search)
    as (f & st' & Hrun).
  exists f, st'. split; [exact Hrun|].
  destruct (control_Ok_inv _ _ _ _ _ _ _ _ _ _ _ _ _ _ _ _ _ _ _ _ _ Hrun)
    as (idx & X_i & Y_i & Psi_n & Psi_i & X_p & Y_p & Psi_h & X_n & Y_n &
        Hs & HXi & HYi & _ & HPi & HXp & HYp & _ & _ & _ &
        Hidx & Hproj & Hcomp & Hh & _).
  rewrite west_search in Hs. injection Hs as <-.
  change (load west_X 1) with (Ok (-1)) in HXi. injection HXi as <-.
  change (load west_Y 1) with (Ok 0) in HYi. injection HYi as <-.
  change (load west_Psi 1) with (Ok PI) in HPi. injection HPi as <-.
  change (load west_X (1 - 1)) with (Ok 0) in HXp. injection HXp as <-.
  change (load west_Y (1 - 1)) with (Ok 0) in HYp. injection HYp as <-.
  rewrite west_signed_projection in Hproj. rewrite west_segment in Hcomp.
  split; [exact Hidx|]. repeat (split; [reflexivity|]). split.
  - rewrite Hh, Hproj, Hcomp. unfold select_heading_idx.
    replace (Rabs (- (7 / 5))) with (7 / 5)
      by (rewrite Rabs_Ropp, Rabs_pos_eq; lra).
    destruct (Rgeb_spec (7 / 5) 1); [reflexivity | lra].
  - rewrite west_signed_projection, west_segment. lra.
Qed.

(** C6, amended.  In a completed call where the vehicle is not straight above
    or below the previous waypoint, [X_est <> X[idx-1]], the heading index is
    [idx+1] exactly when the absolute value of the product of the distance
    of the vehicle from waypoint [idx-1] and [cos(alpha_star - Psi[idx])],
    with [alpha_star = atan((Y[idx-1]-Y_est)/(X[idx-1]-X_est))], is at least
    the length of the segment from waypoint [idx-1] to waypoint [idx];
    otherwise it is [idx].  Both errors are computed with the heading read
    at that index. *)
Theorem C6_heading_index_selection (N : Z) (X_loc Y_loc Psi_loc : list R)
    (X_est Y_est Psi_est v lr lf lambda k1 k2 e1_max Ad_t Bd_t C_t D_t : R)
    (st st' : statics) (f : frame) :
  control N X_loc Y_loc Psi_loc X_est Y_est Psi_est v lr lf lambda
    k1 k2 e1_max Ad_t Bd_t C_t D_t st = Ok (f, st') ->
  nth (Z.to_nat (f_closestpoint_idx f - 1)) X_loc 0 <> X_est ->
  exists X_p Y_p X_i Y_i Psi_i Psi_h,
    let idx := f_closestpoint_idx f in
    let dis_true_previous := sqrt ((X_p - X_est) ^ 2 + (Y_p - Y_est) ^ 2) in
    let alpha_star := atan ((Y_p - Y_est) / (X_p - X_est)) in
    let projected_dist :=
      Rabs (dis_true_previous * cos (alpha_star - Psi_i)) in
    let compared_dist := sqrt ((X_i - X_p) ^ 2 + (Y_i - Y_p) ^ 2) in
    closest_point_search N X_loc Y_loc X_est Y_est = Ok idx /\
    load X_loc (idx - 1) = Ok X_p /\ load Y_loc (idx - 1) = Ok Y_p /\
    X_p <> X_est /\
    load X_loc idx = Ok X_i /\ load Y_loc idx = Ok Y_i /\
    load Psi_loc idx = Ok Psi_i /\
    (f_closestpoint_heading_idx f = (idx + 1)%Z <->
     projected_dist >= compared_dist) /\
    (f_closestpoint_heading_idx f = idx <-> projected_dist < compared_dist) /\
    load Psi_loc (f_closestpoint_heading_idx f) = Ok Psi_h /\
    f_e1 f = f_dy f * cos Psi_h - f_dx f * sin Psi_h /\
    f_e2 f = wrap_angle (Psi_est - Psi_h).
Proof.
  intros H Hne. apply control_Ok_inv in H.
  destruct H as (idx & X_i & Y_i & Psi_n & Psi_i & X_p & Y_p & Psi_h & X_n
    & Y_n & Hs & HXi & HYi & HPn & HPi & HXp & HYp & HXn & HYn & HPh
    & Hidx & Hproj & Hcomp & Hh & Hdx & Hdy & HD & He1 & He2 & _).
  exists X_p, Y_p, X_i, Y_i, Psi_i, Psi_h. cbv zeta.
  rewrite Hidx in Hne |- *. rewrite <- Hproj, <- Hcomp.
  assert (HXne : X_p <> X_est).
  { destruct (load_Ok_inv _ _ _ HXp) as [_ Hnth]. rewrite <- Hnth.
    exact Hne. }
  repeat match goal with |- _ /\ _ => split end; try assumption.
  - rewrite Hh. unfold select_heading_idx.
    destruct (Rgeb_spec (f_projected_dist f) (f_compared_dist f));
      split; intros; try assumption; try reflexivity; try contradiction; lia.
  - rewrite Hh. unfold select_heading_idx.
    destruct (Rgeb_spec (f_projected_dist f) (f_compared_dist f));
      split; intros; try reflexivity; try lia; lra.
Qed.

Lemma scenario_previous_waypoint (f : frame) (st' : statics) :
  scenario_control statics_init = Ok (f, st') ->
  nth (Z.to_nat (f_closestpoint_idx f - 1)) scenario_X 0 <> 1 / 2.
Proof.
  intros Hrun. unfold scenario_control in Hrun.
  apply control_Ok_inv in Hrun.
  destruct Hrun as (idx & X_i & Y_i & Psi_n & Psi_i & X_p & Y_p & Psi_h
    & X_n & Y_n & Hs & _ & _ & _ & _ & _ & _ & _ & _ & _ & Hidx & _).
  rewrite scenario_search in Hs. injection Hs as <-.
  rewrite Hidx. change (0 <> 1 / 2). lra.
Qed.

Lemma C6_heading_index_selection_witness :
  exists f st',
    scenario_control statics_init = Ok (f, st') /\
    nth (Z.to_nat (f_closestpoint_idx f - 1)) scenario_X 0 <> 1 / 2 /\
    exists X_p Y_p X_i Y_i Psi_i,
      load scenario_X (f_closestpoint_idx f - 1) = Ok X_p /\
      load scenario_Y (f_closestpoint_idx f - 1) = Ok Y_p /\
      X_p <> 1 / 2 /\
      load scenario_X (f_closestpoint_idx f) = Ok X_i /\
      load scenario_Y (f_closestpoint_idx f) = Ok Y_i /\
      load scenario_Psi (f_closestpoint_idx f) = Ok Psi_i /\
      (f_closestpoint_heading_idx f = f_closestpoint_idx f <->
       Rabs (sqrt ((X_p - 1 / 2) ^ 2 + (Y_p - 0) ^ 2)
             * cos (atan ((Y_p - 0) / (X_p - 1 / 2)) - Psi_i))
       < sqrt ((X_i - X_p) ^ 2 + (Y_i - Y_p) ^ 2)).
Proof.
  destruct scenario_run as (f & st' & Hrun & _).
  pose proof (scenario_previous_waypoint f st' Hrun) as Hne.
  exists f, st'. split; [exact Hrun|]. split; [exact Hne|].
  destruct (C6_heading_index_selection _ _ _ _ _ _ _ _ _ _ _ _ _ _ _ _ _ _
              _ _ _ Hrun Hne)
    as (X_p & Y_p & X_i & Y_i & Psi_i & Psi_h & H).
  exists X_p, Y_p, X_i, Y_i, Psi_i.
  repeat match goal with |- _ /\ _ => split end; apply H.
Defined.

(** C7.  For every lateral error [e1] and heading error [e2] the error term
    is [-k1*sign(e1)*min(|e1|, e1_max) - k2*e2], where [sign] is [1], [-1] or
    [0] as [e1] is positive, negative or zero.  For a bound [e1_max >= 0]
    and every [|e1| > e1_max] the magnitude of the lateral part is
    [|k1|*e1_max], that is [k1*e1_max] for a gain [k1 >= 0], whatever
    [|e1|]. *)
Theorem C7_steering_error_saturates (k1 k2 e1_max e1 e2 : R) :
  steering_error k1 k2 e1_max e1 e2
    = - k1 * sign e1 * Rmin (Rabs e1) e1_max - k2 * e2 /\
  (sign e1 = 1 <-> e1 > 0) /\
  (sign e1 = -1 <-> e1 < 0) /\
  (sign e1 = 0 <-> e1 = 0) /\
  (0 <= e1_max -> Rabs e1 > e1_max ->
   Rabs (- k1 * sign e1 * min (Rabs e1) e1_max) = Rabs k1 * e1_max) /\
  (0 <= k1 -> 0 <= e1_max -> Rabs e1 > e1_max ->
   Rabs (- k1 * sign e1 * min (Rabs e1) e1_max) = k1 * e1_max).
Proof.
  assert (Hsat : 0 <= e1_max -> Rabs e1 > e1_max ->
    Rabs (- k1 * sign e1 * min (Rabs e1) e1_max) = Rabs k1 * e1_max).
  { intros Hmax Hbig. rewrite min_Rmin, Rmin_right by lra.
    assert (Hne : e1 <> 0).
    { intros ->. rewrite Rabs_R0 in Hbig. lra. }
    rewrite !Rabs_mult, Rabs_Ropp, (Rabs_pos_eq e1_max) by assumption.
    destruct (sign_cases e1) as [[_ ->]|[[_ ->]|[H0 _]]].
    - rewrite Rabs_R1. lra.
    - replace (Rabs (-1)) with 1
        by (unfold Rabs; destruct (Rcase_abs (-1)); lra).
      lra.
    - contradiction. }
  split; [|split; [|split; [|split; [|split]]]].
  - unfold steering_error. rewrite min_Rmin. reflexivity.
  - destruct (sign_cases e1) as [[H ->]|[[H ->]|[H ->]]]; split; intros; lra.
  - destruct (sign_cases e1) as [[H ->]|[[H ->]|[H ->]]]; split; intros; lra.
  - destruct (sign_cases e1) as [[H ->]|[[H ->]|[H ->]]]; split; intros; lra.
  - exact Hsat.
  - intros Hk Hmax Hbig. rewrite (Hsat Hmax Hbig), Rabs_pos_eq by assumption.
    reflexivity.
Qed.

Lemma C7_steering_error_saturates_witness :
  0 <= 1 /\ 0 <= 1 /\ Rabs 3 > 1 /\
  Rabs (- 1 * sign 3 * min (Rabs 3) 1) = 1 * 1.
Proof.
  assert (H3 : Rabs 3 > 1) by (rewrite Rabs_pos_eq; lra).
  repeat split; try lra.
  refine (proj2 (proj2 (proj2 (proj2 (proj2
            (C7_steering_error_saturates 1 0 1 3 0))))) _ _ H3); lra.
Defined.

(** C8.  In a completed call the steering reference before the limit is
    [delta_ref_psi + delta_ref_error], the sum of the filter output
    [C*x + D*dpsiref] and of the error term, and the value used for the roll
    reference lies in [[-PI/4, PI/4]]: a value of that interval is kept, a
    value above it becomes [PI/4] and a value below it becomes [-PI/4]. *)
Theorem C8_delta_ref_is_clamped (N : Z) (X_loc Y_loc Psi_loc : list R)
    (X_est Y_est Psi_est v lr lf lambda k1 k2 e1_max Ad_t Bd_t C_t D_t : R)
    (st st' : statics) (f : frame) :
  control N X_loc Y_loc Psi_loc X_est Y_est Psi_est v lr lf lambda
    k1 k2 e1_max Ad_t Bd_t C_t D_t st = Ok (f, st') ->
  let pre := f_delta_ref_psi f + f_delta_ref_error f in
  f_delta_ref_sum f = pre /\
  - (PI / 4) <= f_delta_ref f <= PI / 4 /\
  (- (PI / 4) <= pre <= PI / 4 -> f_delta_ref f = pre) /\
  (pre > PI / 4 -> f_delta_ref f = PI / 4) /\
  (pre < - (PI / 4) -> f_delta_ref f = - (PI / 4)) /\
  f_roll_ref f = roll_transform lr lf lambda v (f_delta_ref f) /\
  f_delta_ref_psi f = C_t * static_x st + D_t * f_dpsiref f /\
  f_delta_ref_error f = steering_error k1 k2 e1_max (f_e1 f) (f_e2 f).
Proof.
  intros H pre. apply control_Ok_inv in H.
  destruct H as (idx & X_i & Y_i & Psi_n & Psi_i & X_p & Y_p & Psi_h & X_n
    & Y_n & _ & _ & _ & _ & _ & _ & _ & _ & _ & _ & _ & _ & _ & _ & _ & _
    & _ & _ & _ & _ & Herr & Hfil & Hsum & Hlim & Hroll & _).
  fold pre in Hsum. rewrite Hlim, Hsum.
  split; [reflexivity|]. split; [apply limit_delta_ref_range|].
  split; [apply limit_delta_ref_inside|].
  split; [apply limit_delta_ref_above|].
  split; [apply limit_delta_ref_below|].
  split; [rewrite Hroll, Hlim, Hsum; reflexivity|].
  split; [|exact Herr].
  unfold filter_step in Hfil. injection Hfil as Hpsi _. exact Hpsi.
Qed.

Lemma offset_search (y : R) :
  closest_point_search 5 scenario_X scenario_Y (1 / 2) y = Ok 1%Z.
Proof.
  unfold closest_point_search. change (S (Z.to_nat 5)) with 6%nat.
  cbn [search_loop].
  change (load scenario_X 1) with (Ok 1).
  change (load scenario_Y 1) with (Ok 0).
  change (load scenario_X (1 + 1)) with (Ok 2).
  change (load scenario_Y (1 + 1)) with (Ok 0).
  cbn [bind].
  destruct (Rgeb_spec ((1 - 1 / 2) ^ 2 + (0 - y) ^ 2)
                      ((2 - 1 / 2) ^ 2 + (0 - y) ^ 2)) as [H|H].
  - exfalso. lra.
  - reflexivity.
Qed.

(** With the vehicle at [(1/2, y)] the lateral error is [y], the heading
    error and the filter input are zero, and the steering reference before
    the limit is the error term [-2*sign(y)*min(|y|, 1)]. *)
Lemma offset_run (y : R) :
  exists f st',
    offset_control y statics_init = Ok (f, st') /\
    f_e1 f = y /\ f_e2 f = 0 /\ f_dpsiref f = 0.
Proof.
  destruct (control_completes 5 scenario_X scenario_Y scenario_Psi
              (1 / 2) y 0 1 (1 / 2) (1 / 2) 1 2 1 1 0 0 0 1 statics_init 1
              eq_refl eq_refl (offset_search y)) as (f & st' & Hrun).
  exists f, st'. split; [exact Hrun|].
  destruct (control_Ok_inv _ _ _ _ _ _ _ _ _ _ _ _ _ _ _ _ _ _ _ _ _ Hrun)
    as (idx & X_i & Y_i & Psi_n & Psi_i & X_p & Y_p & Psi_h & X_n & Y_n &
        Hs & HXi & HYi & HPn & HPi & _ & _ & _ & _ & HPh &
        _ & _ & _ & Hh & Hdx & Hdy & HD & He1 & He2 & Hdpsi & _).
  rewrite offset_search in Hs. injection Hs as <-.
  change (load scenario_X 1) with (Ok 1) in HXi. injection HXi as <-.
  change (load scenario_Y 1) with (Ok 0) in HYi. injection HYi as <-.
  change (load scenario_Psi (1 + 1)) with (Ok 0) in HPn. injection HPn as <-.
  change (load scenario_Psi 1) with (Ok 0) in HPi. injection HPi as <-.
  assert (HPsi_h : Psi_h = 0).
  { rewrite Hh in HPh. unfold select_heading_idx in HPh.
    destruct (Rgeb _ _).
    - change (load scenario_Psi (1 + 1)) with (Ok 0) in HPh.
      injection HPh as <-. reflexivity.
    - change (load scenario_Psi 1) with (Ok 0) in HPh.
      injection HPh as <-. reflexivity. }
  subst Psi_h. pose proof PI_RGT_0 as Hpi. repeat split.
  - rewrite He1, Hdx, Hdy, sin_0, cos_0. lra.
  - rewrite He2. replace (0 - 0) with 0 by lra.
    apply wrap_angle_fixes. lra.
  - rewrite Hdpsi, HD. rewrite limit_D_psiref_inside by lra.
    unfold Rdiv at 1. lra.
Qed.

Lemma offset_error_term :
  steering_error 2 1 1 3 0 = -2 /\ steering_error 2 1 1 (-3) 0 = 2.
Proof.
  unfold steering_error. split.
  - rewrite sign_pos by lra. rewrite min_Rmin, Rabs_pos_eq by lra.
    rewrite Rmin_right by lra. lra.
  - rewrite sign_neg by lra. rewrite min_Rmin, Rabs_left by lra.
    rewrite Rmin_right by lra. lra.
Qed.

Lemma C8_delta_ref_is_clamped_witness :
  (exists f st',
     offset_control 3 statics_init = Ok (f, st') /\
     f_delta_ref_psi f + f_delta_ref_error f = -2 /\
     -2 < - (PI / 4) /\
     f_delta_ref f = - (PI / 4)) /\
  (exists f st',
     offset_control (-3) statics_init = Ok (f, st') /\
     f_delta_ref_psi f + f_delta_ref_error f = 2 /\
     2 > PI / 4 /\
     f_delta_ref f = PI / 4).
Proof.
  pose proof PI_4 as Hpi4. split.
  - destruct (offset_run 3) as (f & st' & Hrun & He1 & He2 & Hd).
    pose proof (C8_delta_ref_is_clamped _ _ _ _ _ _ _ _ _ _ _ _ _ _ _ _ _ _
                  _ _ _ Hrun)
      as (_ & _ & _ & _ & Hbelow & _ & Hpsi & Herr).
    assert (Hpre : f_delta_ref_psi f + f_delta_ref_error f = -2).
    { rewrite Hpsi, Herr, He1, He2, Hd, (proj1 offset_error_term).
      change (static_x statics_init) with 0. lra. }
    assert (Hlt : -2 < - (PI / 4)) by lra.
    exists f, st'. split; [exact Hrun|]. split; [exact Hpre|].
    split; [exact Hlt|]. apply Hbelow. rewrite Hpre. exact Hlt.
  - destruct (offset_run (-3)) as (f & st' & Hrun & He1 & He2 & Hd).
    pose proof (C8_delta_ref_is_clamped _ _ _ _ _ _ _ _ _ _ _ _ _ _ _ _ _ _
                  _ _ _ Hrun)
      as (_ & _ & _ & Habove & _ & _ & Hpsi & Herr).
    assert (Hpre : f_delta_ref_psi f + f_delta_ref_error f = 2).
    { rewrite Hpsi, Herr, He1, He2, Hd, (proj2 offset_error_term).
      change (static_x statics_init) with 0. lra. }
    assert (Hgt : 2 > PI / 4) by lra.
    exists f, st'. split; [exact Hrun|]. split; [exact Hpre|].
    split; [exact Hgt|]. apply Habove. rewrite Hpre. exact Hgt.
Defined.

(** C9.  In a completed call the index written to [closestpoint_idx_out] is
    [idx - 1] for the index [idx] the closest-point search returned, whether
    the heading index stayed at [idx] or moved to [idx + 1]. *)
Theorem C9_output_index_is_one_behind (N : Z) (X_loc Y_loc Psi_loc : list R)
    (X_est Y_est Psi_est v lr lf lambda k1 k2 e1_max Ad_t Bd_t C_t D_t : R)
    (st st' : statics) (f : frame) :
  control N X_loc Y_loc Psi_loc X_est Y_est Psi_est v lr lf lambda
    k1 k2 e1_max Ad_t Bd_t C_t D_t st = Ok (f, st') ->
  exists idx,
    closest_point_search N X_loc Y_loc X_est Y_est = Ok idx /\
    closestpoint_idx_out (outputs_of f) = (idx - 1)%Z /\
    (f_closestpoint_heading_idx f = idx \/
     f_closestpoint_heading_idx f = (idx + 1)%Z).
Proof.
  intros H. apply control_Ok_inv in H.
  destruct H as (idx & X_i & Y_i & Psi_n & Psi_i & X_p & Y_p & Psi_h & X_n
    & Y_n & Hs & _ & _ & _ & _ & _ & _ & _ & _ & _ & _ & _ & _ & Hh & _ & _
    & _ & _ & _ & _ & _ & _ & _ & _ & _ & Hout).
  exists idx. split; [exact Hs|]. split; [exact Hout|].
  rewrite Hh. unfold select_heading_idx.
  destruct (Rgeb _ _); [right | left]; reflexivity.
Qed.

Lemma C9_output_index_is_one_behind_witness :
  exists f st',
    scenario_control statics_init = Ok (f, st') /\
    closestpoint_idx_out (outputs_of f) = (1 - 1)%Z.
Proof.
  destruct scenario_run as (f & st' & Hrun & _).
  exists f, st'. split; [exact Hrun|].
  destruct (C9_output_index_is_one_behind _ _ _ _ _ _ _ _ _ _ _ _ _ _ _ _ _
              _ _ _ _ Hrun) as (idx & Hs & Hout & _).
  unfold scenario_control in Hrun. rewrite scenario_search in Hs.
  injection Hs as <-. exact Hout.
Defined.

(** C10.  In a completed call of a vehicle with a wheelbase [lr + lf <> 0],
    with lateral error [e1 = 0], heading error [e2 = 0], stored filter state
    [x = 0] and filter input [dpsiref = 0], the roll reference is [0].  The
    roll reference of every such completed call is
    [-atan(tan(delta_ref*sin(lambda)) * v^2/(lr+lf)/g)] with [g = 9.81]. *)
Theorem C10_zero_errors_give_zero_roll (N : Z) (X_loc Y_loc Psi_loc : list R)
    (X_est Y_est Psi_est v lr lf lambda k1 k2 e1_max Ad_t Bd_t C_t D_t : R)
    (st st' : statics) (f : frame) :
  lr + lf <> 0 ->
  control N X_loc Y_loc Psi_loc X_est Y_est Psi_est v lr lf lambda
    k1 k2 e1_max Ad_t Bd_t C_t D_t st = Ok (f, st') ->
  f_roll_ref f
    = - atan (tan (f_delta_ref f * sin lambda) * v ^ 2 / (lr + lf)
              / (981 / 100)) /\
  (f_e1 f = 0 -> f_e2 f = 0 -> static_x st = 0 -> f_dpsiref f = 0 ->
   roll_ref (outputs_of f) = 0).
Proof.
  intros Hw H. apply control_Ok_inv in H.
  destruct H as (idx & X_i & Y_i & Psi_n & Psi_i & X_p & Y_p & Psi_h & X_n
    & Y_n & _ & _ & _ & _ & _ & _ & _ & _ & _ & _ & _ & _ & _ & _ & _ & _
    & _ & _ & _ & _ & Herr & Hfil & Hsum & Hlim & Hroll & _).
  split.
  - rewrite Hroll. unfold roll_transform, g.
    replace (tan (f_delta_ref f * sin lambda) * (v ^ 2 / (lr + lf))
             / (981 / 100))
      with (tan (f_delta_ref f * sin lambda) * v ^ 2 / (lr + lf)
            / (981 / 100))
      by (field; exact Hw).
    ring.
  - intros He1 He2 Hx Hd. cbn [outputs_of roll_ref].
    unfold filter_step in Hfil. injection Hfil as Hpsi _.
    rewrite Hroll, Hlim, Hsum, Hpsi, Herr, He1, He2, Hx, Hd.
    unfold steering_error. rewrite sign_zero.
    replace (C_t * 0 + D_t * 0
             + (- k1 * 0 * min (Rabs 0) e1_max - k2 * 0)) with 0 by ring.
    rewrite limit_delta_ref_inside by (pose proof PI_RGT_0; lra).
    apply roll_transform_zero.
Qed.

Lemma C10_zero_errors_give_zero_roll_witness :
  exists f st',
    scenario_control statics_init = Ok (f, st') /\
    1 / 2 + 1 / 2 <> 0 /\
    f_e1 f = 0 /\ f_e2 f = 0 /\ static_x statics_init = 0 /\
    f_dpsiref f = 0 /\ roll_ref (outputs_of f) = 0.
Proof.
  destruct scenario_run as (f & st' & Hrun & _ & _ & He1 & He2 & Hd).
  assert (Hw : 1 / 2 + 1 / 2 <> 0) by lra.
  exists f, st'. split; [exact Hrun|]. split; [exact Hw|].
  split; [exact He1|]. split; [exact He2|]. split; [reflexivity|].
  split; [exact Hd|].
  exact (proj2 (C10_zero_errors_give_zero_roll _ _ _ _ _ _ _ _ _ _ _ _ _ _
                  _ _ _ _ _ _ _ Hw Hrun) He1 He2 eq_refl Hd).
Defined.

(** * Further properties of the source *)

(** ** [mod], lines 63-68 *)

Lemma floor_plus_Z (r : R) (k : Z) : floor (r + IZR k) = floor r + IZR k.
Proof.
  unfold floor at 2. rewrite <- plus_IZR. apply floor_unique.
  rewrite plus_IZR. destruct (base_Int_part r). lra.
Qed.

(** X1.  [mod(a, b)] takes the sign of its divisor: it lies in [[0, b)] for
    [b > 0] and in [(b, 0]] for [b < 0], and it differs from [a] by an
    integer multiple of [b]. *)
Theorem X1_mod_takes_sign_of_divisor (a b : R) :
  (0 < b -> 0 <= mod_ a b < b) /\
  (b < 0 -> b < mod_ a b <= 0) /\
  (exists k : Z, mod_ a b = a - IZR k * b).
Proof.
  split; [apply mod_pos_range|]. split; [apply mod_neg_range|].
  exists (Int_part (a / b)). reflexivity.
Qed.

Lemma X1_mod_takes_sign_of_divisor_witness :
  (0 < 2 /\ 0 <= mod_ (-7) 2 < 2) /\ (-2 < 0 /\ -2 < mod_ 7 (-2) <= 0).
Proof.
  split.
  - split; [lra|]. apply (proj1 (X1_mod_takes_sign_of_divisor (-7) 2)). lra.
  - split; [lra|].
    apply (proj1 (proj2 (X1_mod_takes_sign_of_divisor 7 (-2)))). lra.
Defined.

(** X2.  [mod] has period [b] in its first argument: for [b <> 0] and every
    integer [k], [mod(a + k*b, b) = mod(a, b)]. *)
Theorem X2_mod_periodic (a b : R) (k : Z) :
  b <> 0 -> mod_ (a + IZR k * b) b = mod_ a b.
Proof.
  intros Hb. unfold mod_.
  replace ((a + IZR k * b) / b) with (a / b + IZR k) by (field; assumption).
  rewrite floor_plus_Z. ring.
Qed.

Lemma X2_mod_periodic_witness :
  2 <> 0 /\ mod_ (1 + IZR 3 * 2) 2 = mod_ 1 2.
Proof.
  assert (H : 2 <> 0) by lra.
  split; [exact H|]. exact (X2_mod_periodic 1 2 3 H).
Defined.

(** ** [wrap_angle], lines 71-77 *)

(** X3.  [wrap_angle] leaves the angles of [[-PI, PI)] unchanged, is
    idempotent, and moves every angle by an integer number of turns. *)
Theorem X3_wrap_angle_normal_form (a : R) :
  (- PI <= a < PI -> wrap_angle a = a) /\
  wrap_angle (wrap_angle a) = wrap_angle a /\
  (exists k : Z, wrap_angle a = a + 2 * PI * IZR k).
Proof.
  split; [apply wrap_angle_fixes|]. split.
  - apply wrap_angle_fixes. apply wrap_angle_range.
  - rewrite wrap_angle_wrapped.
    destruct (wrapped_congruent (a + PI) (2 * PI)) as [m Hm].
    exists m. rewrite Hm. ring.
Qed.

Lemma X3_wrap_angle_normal_form_witness :
  - PI <= PI / 2 < PI /\ wrap_angle (PI / 2) = PI / 2.
Proof.
  assert (H : - PI <= PI / 2 < PI) by (pose proof PI_RGT_0; split; lra).
  split; [exact H|]. exact (proj1 (X3_wrap_angle_normal_form (PI / 2)) H).
Defined.

(** ** [sign], [min] and the error term, lines 33-60 and 184 *)

Lemma sign_times_Rabs (e : R) : sign e * Rabs e = e.
Proof.
  destruct (sign_cases e) as [[H ->]|[[H ->]|[H ->]]].
  - rewrite Rabs_pos_eq; lra.
  - rewrite Rabs_left; lra.
  - subst e. lra.
Qed.

Lemma sign_opp (e : R) : sign (- e) = - sign e.
Proof.
  destruct (sign_cases e) as [[H ->]|[[H ->]|[H ->]]].
  - rewrite sign_neg; lra.
  - rewrite sign_pos; lra.
  - subst e. rewrite Ropp_0, sign_zero. lra.
Qed.

(** X4.  Below the saturation, [|e1| <= e1_max], the error term is the plain
    proportional law [-k1*e1 - k2*e2]. *)
Theorem X4_steering_error_linear_region (k1 k2 e1_max e1 e2 : R) :
  Rabs e1 <= e1_max ->
  steering_error k1 k2 e1_max e1 e2 = - k1 * e1 - k2 * e2.
Proof.
  intros H. unfold steering_error.
  assert (Hmin : min (Rabs e1) e1_max = Rabs e1).
  { unfold min. destruct (Rltb_spec (Rabs e1) e1_max); lra. }
  rewrite Hmin, Rmult_assoc, sign_times_Rabs. reflexivity.
Qed.

Lemma X4_steering_error_linear_region_witness :
  Rabs (1 / 2) <= 1 /\
  steering_error 2 3 1 (1 / 2) (1 / 4) = - 2 * (1 / 2) - 3 * (1 / 4).
Proof.
  assert (H : Rabs (1 / 2) <= 1) by (rewrite Rabs_pos_eq; lra).
  split; [exact H|].
  exact (X4_steering_error_linear_region 2 3 1 (1 / 2) (1 / 4) H).
Defined.

(** X5.  The error term is odd in the pair of errors: mirrored errors give
    the mirrored steering contribution. *)
Theorem X5_steering_error_odd (k1 k2 e1_max e1 e2 : R) :
  steering_error k1 k2 e1_max (- e1) (- e2)
  = - steering_error k1 k2 e1_max e1 e2.
Proof.
  unfold steering_error. rewrite sign_opp, Rabs_Ropp. ring.
Qed.

(** ** The closest-point search, lines 109-117: what it returns *)

Section SearchOutcome.
Variable N : Z.
Variables X_loc Y_loc : list R.
Variables X_est Y_est : R.
Hypothesis X_loc_length : Z.of_nat (length X_loc) = N.
Hypothesis Y_loc_length : Z.of_nat (length Y_loc) = N.

Local Abbreviation loop := (search_loop N X_loc Y_loc X_est Y_est).
Local Abbreviation search := (closest_point_search N X_loc Y_loc X_est Y_est).
Local Abbreviation dist := (sq_dist X_loc Y_loc X_est Y_est).

Lemma search_loop_complete (fuel : nat) (idx r : Z) :
  (1 <= idx <= r)%Z -> (r <= N - 2)%Z ->
  (r - idx + 1 <= Z.of_nat fuel)%Z ->
  dist r < dist (r + 1) ->
  (forall i, (idx <= i < r)%Z -> dist i >= dist (i + 1)) ->
  loop fuel idx = Ok r.
Proof.
  revert idx. induction fuel as [|fuel IH]; intros idx Hidx Hr Hfuel Hstop Hgo;
    [lia|].
  cbn [search_loop].
  rewrite (load_inside X_loc idx), (load_inside Y_loc idx) by lia.
  rewrite (load_inside X_loc (idx + 1)), (load_inside Y_loc (idx + 1)) by lia.
  cbn [bind]. fold (dist idx). fold (dist (idx + 1)).
  destruct (Z.eq_dec idx r) as [->|Hne].
  - destruct (Rgeb_spec (dist r) (dist (r + 1))); [lra | reflexivity].
  - destruct (Rgeb_spec (dist idx) (dist (idx + 1))) as [Hge|Hlt].
    + destruct (Z.leb_spec idx (N - 1)); [|lia]. cbn [andb].
      apply IH; try lia; try assumption. intros i Hi. apply Hgo. lia.
    + exfalso. apply Hlt. apply Hgo. lia.
Qed.

Lemma search_loop_outcome (fuel : nat) (idx : Z) :
  (1 <= idx <= N)%Z ->
  (1 <= Z.of_nat fuel)%Z -> (N - idx <= Z.of_nat fuel)%Z ->
  (exists r, loop fuel idx = Ok r /\ (idx <= r <= N - 2)%Z) \/
  loop fuel idx = OutOfRange N.
Proof.
  revert idx. induction fuel as [|fuel IH]; intros idx Hidx H1 H2; [lia|].
  cbn [search_loop].
  destruct (Z.eq_dec idx N) as [->|HneN].
  { right. rewrite (load_outside X_loc N) by lia. reflexivity. }
  rewrite (load_inside X_loc idx), (load_inside Y_loc idx) by lia.
  cbn [bind].
  destruct (Z.eq_dec idx (N - 1)) as [->|Hne].
  { right. replace (N - 1 + 1)%Z with N by lia.
    rewrite (load_outside X_loc N) by lia. reflexivity. }
  rewrite (load_inside X_loc (idx + 1)), (load_inside Y_loc (idx + 1)) by lia.
  cbn [bind].
  destruct (Rgeb _ _); cbn [andb].
  - destruct (Z.leb_spec idx (N - 1)); [|lia].
    destruct (IH (idx + 1)%Z) as [(r & Hr & Hb)|Hout]; try lia.
    + left. exists r. split; [exact Hr | lia].
    + right. exact Hout.
  - left. exists idx. split; [reflexivity | lia].
Qed.

Lemma search_loop_overrun_inv (fuel : nat) (idx : Z) :
  (1 <= idx)%Z -> loop fuel idx = OutOfRange N ->
  forall i, (idx <= i <= N - 2)%Z -> dist i >= dist (i + 1).
Proof.
  revert idx. induction fuel as [|fuel IH]; intros idx Hidx H i Hi;
    [discriminate|].
  cbn [search_loop] in H.
  rewrite (load_inside X_loc idx), (load_inside Y_loc idx) in H by lia.
  rewrite (load_inside X_loc (idx + 1)), (load_inside Y_loc (idx + 1)) in H
    by lia.
  cbn [bind] in H. fold (dist idx) in H. fold (dist (idx + 1)) in H.
  destruct (Rgeb_spec (dist idx) (dist (idx + 1))) as [Hge|Hlt];
    cbn [andb] in H; [|discriminate].
  destruct (Z.leb_spec idx (N - 1)); [|discriminate].
  destruct (Z.eq_dec i idx) as [->|Hne]; [exact Hge|].
  apply (IH (idx + 1)%Z); [lia | exact H | lia].
Qed.

(** X6.  On a window of [N >= 1] waypoints the search has two outcomes
    only: it returns an index of [[1, N-2]], or it reads [X_loc[N]], the
    first element past the window.  No other index is read out of range and
    the loop always ends. *)
Theorem X6_search_outcomes :
  (1 <= N)%Z ->
  (exists r, closest_point_search N X_loc Y_loc X_est Y_est = Ok r /\
             (1 <= r <= N - 2)%Z) \/
  closest_point_search N X_loc Y_loc X_est Y_est = OutOfRange N.
Proof.
  intros HN. apply search_loop_outcome; lia.
Qed.

(** X7.  The search returns [r] exactly when [r] is the first index from 1
    on, and at most [N-2], whose waypoint is strictly closer to the vehicle
    than the next one; equal distances make it advance. *)
Theorem X7_search_returns_first_strict_increase (r : Z) :
  closest_point_search N X_loc Y_loc X_est Y_est = Ok r <->
  (1 <= r <= N - 2)%Z /\
  sq_dist X_loc Y_loc X_est Y_est r
    < sq_dist X_loc Y_loc X_est Y_est (r + 1) /\
  (forall i, (1 <= i < r)%Z ->
     sq_dist X_loc Y_loc X_est Y_est i
     >= sq_dist X_loc Y_loc X_est Y_est (i + 1)).
Proof.
  split.
  - intros H. apply search_loop_Ok in H.
    destruct H as (H1 & H2 & H3 & H4 & H5 & H6).
    split; [lia|]. split.
    + destruct H5 as [H5|H5]; [exact H5 | lia].
    + intros i Hi. apply H6. exact Hi.
  - intros (Hr & Hstop & Hgo).
    apply search_loop_complete; try assumption; lia.
Qed.

(** X8.  The search leaves the window, reading [X_loc[N]], exactly when
    every waypoint from index 1 to [N-2] is at least as far from the vehicle
    as the next one. *)
Theorem X8_search_overruns_iff_no_stop :
  (1 <= N)%Z ->
  (closest_point_search N X_loc Y_loc X_est Y_est = OutOfRange N <->
   forall i, (1 <= i <= N - 2)%Z ->
     sq_dist X_loc Y_loc X_est Y_est i
     >= sq_dist X_loc Y_loc X_est Y_est (i + 1)).
Proof.
  intros HN. split.
  - intros H. unfold closest_point_search in H.
    apply (search_loop_overrun_inv _ 1%Z ltac:(lia) H).
  - intros H. apply search_overrun; assumption.
Qed.
End SearchOutcome.

Lemma X6_search_outcomes_witness :
  Z.of_nat (length scenario_X) = 5%Z /\
  Z.of_nat (length scenario_Y) = 5%Z /\
  ((exists r, closest_point_search 5 scenario_X scenario_Y (1 / 2) 0 = Ok r
              /\ (1 <= r <= 5 - 2)%Z) \/
   closest_point_search 5 scenario_X scenario_Y (1 / 2) 0 = OutOfRange 5).
Proof.
  split; [reflexivity|]. split; [reflexivity|].
  apply (X6_search_outcomes 5 scenario_X scenario_Y (1 / 2) 0
           eq_refl eq_refl).
  lia.
Defined.

Lemma X7_search_returns_first_strict_increase_witness :
  Z.of_nat (length scenario_X) = 5%Z /\
  Z.of_nat (length scenario_Y) = 5%Z /\
  sq_dist scenario_X scenario_Y (1 / 2) 0 1
  < sq_dist scenario_X scenario_Y (1 / 2) 0 (1 + 1).
Proof.
  split; [reflexivity|]. split; [reflexivity|].
  apply (proj1 (X7_search_returns_first_strict_increase 5 scenario_X
                  scenario_Y (1 / 2) 0 eq_refl eq_refl 1)).
  exact scenario_search.
Defined.

Lemma far_vehicle_never_stops (i : Z) :
  (1 <= i <= 4 - 2)%Z ->
  sq_dist [0; 1; 2; 3] [0; 0; 0; 0] 10 0 i
  >= sq_dist [0; 1; 2; 3] [0; 0; 0; 0] 10 0 (i + 1).
Proof.
  intros Hi. assert (Hc : i = 1%Z \/ i = 2%Z) by lia.
  destruct Hc as [-> | ->].
  - change ((1 - 10) ^ 2 + (0 - 0) ^ 2 >= (2 - 10) ^ 2 + (0 - 0) ^ 2). lra.
  - change ((2 - 10) ^ 2 + (0 - 0) ^ 2 >= (3 - 10) ^ 2 + (0 - 0) ^ 2). lra.
Qed.

Lemma X8_search_overruns_iff_no_stop_witness :
  Z.of_nat (length [0; 1; 2; 3]) = 4%Z /\
  Z.of_nat (length [0; 0; 0; 0]) = 4%Z /\
  closest_point_search 4 [0; 1; 2; 3] [0; 0; 0; 0] 10 0 = OutOfRange 4.
Proof.
  split; [reflexivity|]. split; [reflexivity|].
  apply (proj2 (X8_search_overruns_iff_no_stop 4 [0; 1; 2; 3] [0; 0; 0; 0]
                  10 0 eq_refl eq_refl ltac:(lia))).
  exact far_vehicle_never_stops.
Defined.

(** ** The search along a straight, evenly spaced window *)

(** X9.  On a window whose waypoints are [(x0, y0) + i*(ux, uy)], the
    returned index does not decrease when the vehicle moves forward along
    the direction [(ux, uy)]: of two positions, the one with the larger
    projection on [(ux, uy)] gets an index at least as large. *)
Theorem X9_search_monotone_on_a_line (N : Z) (X_loc Y_loc : list R)
    (x0 y0 ux uy X_est Y_est X_est' Y_est' : R) (r r' : Z) :
  Z.of_nat (length X_loc) = N ->
  (forall i, (0 <= i < N)%Z -> nth (Z.to_nat i) X_loc 0 = x0 + IZR i * ux) ->
  (forall i, (0 <= i < N)%Z -> nth (Z.to_nat i) Y_loc 0 = y0 + IZR i * uy) ->
  ux * X_est + uy * Y_est <= ux * X_est' + uy * Y_est' ->
  closest_point_search N X_loc Y_loc X_est Y_est = Ok r ->
  closest_point_search N X_loc Y_loc X_est' Y_est' = Ok r' ->
  (r <= r')%Z.
Proof.
  intros HX HXi HYi Hfwd Hs Hs'.
  apply search_loop_Ok in Hs, Hs'.
  destruct Hs as (H1 & _ & H2 & _ & _ & Hgo).
  destruct Hs' as (H1' & _ & H2' & _ & Hstop' & _).
  destruct (Z.le_gt_cases r r') as [Hle|Hgt]; [exact Hle|exfalso].
  destruct Hstop' as [Hstop'|Hstop']; [|lia].
  destruct (Hgo r') as [Hge _]; [lia|].
  unfold sq_dist in Hstop', Hge.
  rewrite (HXi r'), (HXi (r' + 1)%Z), (HYi r'), (HYi (r' + 1)%Z) in Hstop', Hge
    by lia.
  rewrite plus_IZR in Hstop', Hge.
  set (a := x0 + IZR r' * ux) in *. set (b := y0 + IZR r' * uy) in *.
  replace (x0 + (IZR r' + 1) * ux) with (a + ux) in Hstop', Hge
    by (unfold a; ring).
  replace (y0 + (IZR r' + 1) * uy) with (b + uy) in Hstop', Hge
    by (unfold b; ring).
  nra.
Qed.

Lemma scenario_on_a_line (i : Z) :
  (0 <= i < 5)%Z ->
  nth (Z.to_nat i) scenario_X 0 = 0 + IZR i * 1 /\
  nth (Z.to_nat i) scenario_Y 0 = 0 + IZR i * 0.
Proof.
  intros Hi.
  assert (Hc : i = 0%Z \/ i = 1%Z \/ i = 2%Z \/ i = 3%Z \/ i = 4%Z) by lia.
  destruct Hc as [->|[->|[->|[->| ->]]]].
  - split; [change (0 = 0 + 0 * 1) | change (0 = 0 + 0 * 0)]; lra.
  - split; [change (1 = 0 + 1 * 1) | change (0 = 0 + 1 * 0)]; lra.
  - split; [change (2 = 0 + 2 * 1) | change (0 = 0 + 2 * 0)]; lra.
  - split; [change (3 = 0 + 3 * 1) | change (0 = 0 + 3 * 0)]; lra.
  - split; [change (4 = 0 + 4 * 1) | change (0 = 0 + 4 * 0)]; lra.
Qed.

Lemma scenario_search_further :
  closest_point_search 5 scenario_X scenario_Y (17 / 10) 0 = Ok 2%Z.
Proof.
  apply search_loop_complete; try reflexivity; try lia.
  - change ((2 - 17 / 10) ^ 2 + (0 - 0) ^ 2 < (3 - 17 / 10) ^ 2 + (0 - 0) ^ 2).
    lra.
  - intros i Hi. assert (i = 1%Z) by lia. subst i.
    change ((1 - 17 / 10) ^ 2 + (0 - 0) ^ 2
            >= (2 - 17 / 10) ^ 2 + (0 - 0) ^ 2).
    lra.
Qed.

Lemma X9_search_monotone_on_a_line_witness :
  closest_point_search 5 scenario_X scenario_Y (1 / 2) 0 = Ok 1%Z /\
  closest_point_search 5 scenario_X scenario_Y (17 / 10) 0 = Ok 2%Z /\
  1 * (1 / 2) + 0 * 0 <= 1 * (17 / 10) + 0 * 0 /\
  (1 <= 2)%Z.
Proof.
  assert (Hfwd : 1 * (1 / 2) + 0 * 0 <= 1 * (17 / 10) + 0 * 0) by lra.
  split; [exact scenario_search|]. split; [exact scenario_search_further|].
  split; [exact Hfwd|].
  exact (X9_search_monotone_on_a_line 5 scenario_X scenario_Y 0 0 1 0
           (1 / 2) 0 (17 / 10) 0 1 2 eq_refl
           (fun i Hi => proj1 (scenario_on_a_line i Hi))
           (fun i Hi => proj2 (scenario_on_a_line i Hi))
           Hfwd scenario_search scenario_search_further).
Defined.

(** ** Unpacking the buffer, lines 94-106 *)

Lemma skipn_cons_nth (l : list R) (k : nat) :
  (k < length l)%nat -> skipn k l = nth k l 0 :: skipn (S k) l.
Proof.
  revert l. induction k as [|k IH]; intros [|d l] H; cbn [length] in H;
    try lia.
  - reflexivity.
  - cbn [skipn nth]. rewrite (IH l) by lia. reflexivity.
Qed.

Lemma firstn_length_app (a b : list R) : firstn (length a) (a ++ b) = a.
Proof.
  induction a as [|d a IH]; cbn [length app firstn].
  - reflexivity.
  - rewrite IH. reflexivity.
Qed.

Lemma skipn_length_app (a b : list R) : skipn (length a) (a ++ b) = b.
Proof.
  induction a as [|d a IH]; cbn [length app skipn]; [reflexivity | exact IH].
Qed.

Lemma unpack_loop_content (traj_loc : list R) (s n : nat) :
  forall (k : nat) (X Y Psi : list R),
  (k + n <= s)%nat -> (3 * s <= length traj_loc)%nat ->
  unpack_loop traj_loc (Z.of_nat s) n (Z.of_nat k) X Y Psi =
  Ok (X ++ firstn n (skipn k traj_loc),
      Y ++ firstn n (skipn (k + s) traj_loc),
      Psi ++ firstn n (skipn (k + 2 * s) traj_loc)).
Proof.
  induction n as [|n IH]; intros k X Y Psi Hk Hlen.
  - cbn [unpack_loop firstn]. rewrite !app_nil_r. reflexivity.
  - cbn [unpack_loop].
    rewrite (load_inside traj_loc (Z.of_nat k)) by lia.
    rewrite (load_inside traj_loc (Z.of_nat k + Z.of_nat s)) by lia.
    rewrite (load_inside traj_loc (Z.of_nat k + 2 * Z.of_nat s)) by lia.
    cbn [bind].
    replace (Z.of_nat k + 1)%Z with (Z.of_nat (S k)) by lia.
    rewrite IH by lia.
    replace (Z.to_nat (Z.of_nat k)) with k by lia.
    replace (Z.to_nat (Z.of_nat k + Z.of_nat s)) with (k + s)%nat by lia.
    replace (Z.to_nat (Z.of_nat k + 2 * Z.of_nat s)) with (k + 2 * s)%nat
      by lia.
    rewrite (skipn_cons_nth traj_loc k) by lia.
    rewrite (skipn_cons_nth traj_loc (k + s)) by lia.
    rewrite (skipn_cons_nth traj_loc (k + 2 * s)) by lia.
    cbn [firstn]. rewrite <- !app_assoc. reflexivity.
Qed.

Lemma unpack_loop_Ok_reads (traj_loc : list R) (size : Z) (n : nat) :
  forall (i : Z) (X Y Psi : list R) w,
  unpack_loop traj_loc size n i X Y Psi = Ok w ->
  forall j, (i <= j < i + Z.of_nat n)%Z ->
  (j + 2 * size < Z.of_nat (length traj_loc))%Z.
Proof.
  induction n as [|n IH]; intros i X Y Psi w H j Hj; [lia|].
  cbn [unpack_loop] in H. bind_inv H.
  apply load_Ok_inv in E1. destruct E1 as [Hr _].
  destruct (Z.eq_dec j i) as [->|Hne]; [lia|].
  apply (IH _ _ _ _ _ H). lia.
Qed.

Lemma unpack_content (s : nat) (traj_loc : list R) :
  (3 * s <= length traj_loc)%nat ->
  unpack (Z.of_nat s) traj_loc =
  Ok (firstn s traj_loc,
      firstn s (skipn s traj_loc),
      firstn s (skipn (2 * s) traj_loc)).
Proof.
  intros H. unfold unpack. rewrite Nat2Z.id.
  exact (unpack_loop_content traj_loc s s 0 [] [] [] ltac:(lia) H).
Qed.

(** X10.  When the buffer holds at least [3*size_traj_loc] doubles, the
    three arrays are the first [size_traj_loc] doubles of the buffer, the
    next [size_traj_loc], and the [size_traj_loc] after those. *)
Theorem X10_unpack_content (s : nat) (traj_loc : list R) :
  (3 * s <= length traj_loc)%nat ->
  unpack (Z.of_nat s) traj_loc =
  Ok (firstn s traj_loc,
      firstn s (skipn s traj_loc),
      firstn s (skipn (2 * s) traj_loc)).
Proof. apply unpack_content. Qed.

Lemma X10_unpack_content_witness :
  (3 * 2 <= length [0; 1; 2; 3; 4; 5; 6])%nat /\
  unpack 2 [0; 1; 2; 3; 4; 5; 6] = Ok ([0; 1], [2; 3], [4; 5]).
Proof.
  assert (H : (3 * 2 <= length [0; 1; 2; 3; 4; 5; 6])%nat) by (cbn; lia).
  split; [exact H|].
  exact (X10_unpack_content 2 [0; 1; 2; 3; 4; 5; 6] H).
Defined.

(** X11.  When [size_traj_loc] is the number of waypoints, unpacking undoes
    the layout [[X_ref Y_ref Psi_ref]]: the buffer made of three arrays of
    [n] doubles one after the other is unpacked into these three arrays. *)
Theorem X11_unpack_inverts_layout (X Y Psi : list R) :
  length Y = length X -> length Psi = length X ->
  unpack (Z.of_nat (length X)) (X ++ Y ++ Psi) = Ok (X, Y, Psi).
Proof.
  intros HY HPsi.
  rewrite unpack_content by (rewrite !length_app; lia).
  rewrite firstn_length_app, skipn_length_app.
  rewrite <- HY at 1. rewrite firstn_length_app.
  replace (2 * length X)%nat with (length (X ++ Y))
    by (rewrite length_app; lia).
  rewrite app_assoc, skipn_length_app.
  rewrite <- HPsi, firstn_all. reflexivity.
Qed.

Lemma X11_unpack_inverts_layout_witness :
  length [0; 0; 0] = length [1; 2; 3] /\
  length [4; 5; 6] = length [1; 2; 3] /\
  unpack 3 ([1; 2; 3] ++ [0; 0; 0] ++ [4; 5; 6])
  = Ok ([1; 2; 3], [0; 0; 0], [4; 5; 6]).
Proof.
  split; [reflexivity|]. split; [reflexivity|].
  exact (X11_unpack_inverts_layout [1; 2; 3] [0; 0; 0] [4; 5; 6]
           eq_refl eq_refl).
Defined.

(** X12.  For [size_traj_loc >= 1] the unpacking loop completes exactly when
    the buffer holds at least [3*size_traj_loc] doubles; on a shorter buffer
    it reads past the end of [traj_loc]. *)
Theorem X12_unpack_needs_three_arrays (size : Z) (traj_loc : list R) :
  (1 <= size)%Z ->
  ((exists w, unpack size traj_loc = Ok w) <->
   (3 * size <= Z.of_nat (length traj_loc))%Z).
Proof.
  intros Hs. split.
  - intros [w H]. unfold unpack in H.
    pose proof (unpack_loop_Ok_reads _ _ _ _ _ _ _ _ H (size - 1)%Z) as Hr.
    lia.
  - intros H. replace size with (Z.of_nat (Z.to_nat size)) by lia.
    rewrite unpack_content by lia. eexists. reflexivity.
Qed.

Lemma X12_unpack_needs_three_arrays_witness :
  (1 <= 2)%Z /\ (3 * 2 <= Z.of_nat (length [0; 1; 2; 3; 4; 5; 6]))%Z /\
  exists w, unpack 2 [0; 1; 2; 3; 4; 5; 6] = Ok w.
Proof.
  assert (H1 : (1 <= 2)%Z) by lia.
  assert (H2 : (3 * 2 <= Z.of_nat (length [0; 1; 2; 3; 4; 5; 6]))%Z)
    by (cbn; lia).
  split; [exact H1|]. split; [exact H2|].
  exact (proj2 (X12_unpack_needs_three_arrays 2 [0; 1; 2; 3; 4; 5; 6] H1) H2).
Defined.

(** ** Completed calls of [control], lines 108-210 *)

(** X13.  On a window whose three arrays hold [N] waypoints, the body of the
    controller completes exactly when some waypoint of index [1] to [N-2] is
    strictly closer to the vehicle than the next one; otherwise it reads
    outside the window. *)
Theorem X13_control_completes_iff_search_stops (N : Z)
    (X_loc Y_loc Psi_loc : list R)
    (X_est Y_est Psi_est v lr lf lambda k1 k2 e1_max Ad_t Bd_t C_t D_t : R)
    (st : statics) :
  Z.of_nat (length X_loc) = N -> Z.of_nat (length Y_loc) = N ->
  Z.of_nat (length Psi_loc) = N ->
  ((exists f st',
      control N X_loc Y_loc Psi_loc X_est Y_est Psi_est v lr lf lambda
        k1 k2 e1_max Ad_t Bd_t C_t D_t st = Ok (f, st')) <->
   (exists r, (1 <= r <= N - 2)%Z /\
      sq_dist X_loc Y_loc X_est Y_est r
      < sq_dist X_loc Y_loc X_est Y_est (r + 1))).
Proof.
  intros HX HY HPsi. split.
  - intros (f & st' & H). apply control_Ok_inv in H.
    destruct H as (idx & X_i & Y_i & Psi_n & Psi_i & X_p & Y_p & Psi_h & X_n
      & Y_n & Hs & _).
    apply search_loop_Ok in Hs.
    destruct Hs as (H1 & _ & H2 & _ & [H3|H3] & _); [|lia].
    exists idx. split; [lia | exact H3].
  - intros (r & Hr & Hstop).
    destruct (search_loop_outcome N X_loc Y_loc X_est Y_est HX HY
                (S (Z.to_nat N)) 1) as [(r' & Hs & _)|Hout]; try lia.
    + apply (control_completes _ _ _ _ _ _ _ _ _ _ _ _ _ _ _ _ _ _ _ r');
        [lia | lia | exact Hs].
    + exfalso.
      pose proof (search_loop_overrun_inv N X_loc Y_loc X_est Y_est HX HY
                    _ 1%Z ltac:(lia) Hout r ltac:(lia)) as Hge.
      lra.
Qed.

Lemma X13_control_completes_iff_search_stops_witness :
  (exists r, (1 <= r <= 5 - 2)%Z /\
     sq_dist scenario_X scenario_Y (1 / 2) 0 r
     < sq_dist scenario_X scenario_Y (1 / 2) 0 (r + 1)) /\
  exists f st', scenario_control statics_init = Ok (f, st').
Proof.
  assert (H : exists r, (1 <= r <= 5 - 2)%Z /\
     sq_dist scenario_X scenario_Y (1 / 2) 0 r
     < sq_dist scenario_X scenario_Y (1 / 2) 0 (r + 1)).
  { exists 1%Z. split; [lia|].
    change ((1 - 1 / 2) ^ 2 + (0 - 0) ^ 2 < (2 - 1 / 2) ^ 2 + (0 - 0) ^ 2).
    lra. }
  split; [exact H|].
  exact (proj2 (X13_control_completes_iff_search_stops 5 scenario_X
                  scenario_Y scenario_Psi (1 / 2) 0 0 1 (1 / 2) (1 / 2) 1
                  1 1 1 0 0 0 1 statics_init eq_refl eq_refl eq_refl) H).
Defined.

(** X14.  In a completed call on a window of [N] waypoints the search index
    lies in [[1, N-2]], the heading index is that index or the next one and
    lies in [[1, N-1]], and the index written out lies in [[0, N-3]]: all
    three are indices of the window. *)
Theorem X14_indices_stay_in_window (N : Z) (X_loc Y_loc Psi_loc : list R)
    (X_est Y_est Psi_est v lr lf lambda k1 k2 e1_max Ad_t Bd_t C_t D_t : R)
    (st st' : statics) (f : frame) :
  Z.of_nat (length X_loc) = N ->
  control N X_loc Y_loc Psi_loc X_est Y_est Psi_est v lr lf lambda
    k1 k2 e1_max Ad_t Bd_t C_t D_t st = Ok (f, st') ->
  (1 <= f_closestpoint_idx f <= N - 2)%Z /\
  (f_closestpoint_idx f <= f_closestpoint_heading_idx f
   <= f_closestpoint_idx f + 1)%Z /\
  (1 <= f_closestpoint_heading_idx f <= N - 1)%Z /\
  (0 <= closestpoint_idx_out (outputs_of f) <= N - 3)%Z.
Proof.
  intros HX H. apply control_Ok_inv in H.
  destruct H as (idx & X_i & Y_i & Psi_n & Psi_i & X_p & Y_p & Psi_h & X_n
    & Y_n & Hs & _ & _ & _ & _ & _ & _ & _ & _ & _ & Hidx & _ & _ & Hh & _
    & _ & _ & _ & _ & _ & _ & _ & _ & _ & _ & Hout).
  apply search_loop_Ok in Hs. destruct Hs as (H1 & _ & H2 & _).
  cbn [outputs_of closestpoint_idx_out]. rewrite Hout, Hidx.
  assert (Hhi : (idx <= f_closestpoint_heading_idx f <= idx + 1)%Z).
  { rewrite Hh. unfold select_heading_idx. destruct (Rgeb _ _); lia. }
  lia.
Qed.

Lemma X14_indices_stay_in_window_witness :
  exists f st',
    scenario_control statics_init = Ok (f, st') /\
    (0 <= closestpoint_idx_out (outputs_of f) <= 5 - 3)%Z.
Proof.
  destruct scenario_run as (f & st' & Hrun & _).
  exists f, st'. split; [exact Hrun|].
  exact (proj2 (proj2 (proj2
    (X14_indices_stay_in_window 5 scenario_X scenario_Y scenario_Psi
       _ _ _ _ _ _ _ _ _ _ _ _ _ _ _ _ _ eq_refl Hrun)))).
Defined.

(** X15.  With pointers of eight bytes or fewer, as on LP64 and ILP32
    targets, no call of [trajectory_controller] completes, whatever its
    arguments: the window then has at most two waypoints and the search
    reads outside it. *)
Theorem X15_no_call_completes_on_narrow_pointers (p : platform)
    (traj_loc : list R) (X_est Y_est Psi_est v : R)
    (bike_params traj_params : list R) (Ad_t Bd_t C_t D_t : R)
    (st : statics) (r : outputs * statics) :
  (sizeof_double_ptr p <= 8)%Z ->
  trajectory_controller p traj_loc X_est Y_est Psi_est v
    bike_params traj_params Ad_t Bd_t C_t D_t st <> Ok r.
Proof.
  intros Hp H. apply completed_call_needs_wide_pointer in H. lia.
Qed.

Lemma X15_no_call_completes_on_narrow_pointers_witness :
  (sizeof_double_ptr LP64 <= 8)%Z /\
  trajectory_controller LP64 [0; 1; 2; 3; 4; 0; 0; 0; 0; 0; 0; 0; 0; 0; 0]
    (1 / 2) 0 0 1 [1 / 2; 1 / 2; 1] [1; 1; 1] 0 0 0 1 statics_init
  <> Ok (mkOutputs 0 0, statics_init).
Proof.
  assert (H : (sizeof_double_ptr LP64 <= 8)%Z) by (cbn; lia).
  split; [exact H|].
  exact (X15_no_call_completes_on_narrow_pointers LP64 _ _ _ _ _ _ _ _ _ _ _
           _ _ H).
Defined.

(** ** The errors of a completed call, lines 122-167 *)

(** X16.  The lateral error never exceeds the distance from the vehicle to
    the closest point: [e1^2 <= dx^2 + dy^2]. *)
Theorem X16_lateral_error_within_distance (N : Z)
    (X_loc Y_loc Psi_loc : list R)
    (X_est Y_est Psi_est v lr lf lambda k1 k2 e1_max Ad_t Bd_t C_t D_t : R)
    (st st' : statics) (f : frame) :
  control N X_loc Y_loc Psi_loc X_est Y_est Psi_est v lr lf lambda
    k1 k2 e1_max Ad_t Bd_t C_t D_t st = Ok (f, st') ->
  f_e1 f ^ 2 <= f_dx f ^ 2 + f_dy f ^ 2 /\
  Rabs (f_e1 f) <= sqrt (f_dx f ^ 2 + f_dy f ^ 2).
Proof.
  intros H. apply control_Ok_inv in H.
  destruct H as (idx & X_i & Y_i & Psi_n & Psi_i & X_p & Y_p & Psi_h & X_n
    & Y_n & _ & _ & _ & _ & _ & _ & _ & _ & _ & _ & _ & _ & _ & _ & _ & _
    & _ & He1 & _).
  assert (Hsq : f_e1 f ^ 2 <= f_dx f ^ 2 + f_dy f ^ 2).
  { rewrite He1. pose proof (sin2_cos2 Psi_h) as Hsc. unfold Rsqr in Hsc.
    set (s := sin Psi_h) in *. set (c := cos Psi_h) in *.
    set (dx := f_dx f). set (dy := f_dy f).
    assert (Hid : (dy * c - dx * s) ^ 2 + (dx * c + dy * s) ^ 2
                  = (dx ^ 2 + dy ^ 2) * (s * s + c * c)) by ring.
    rewrite Hsc, Rmult_1_r in Hid.
    pose proof (pow2_ge_0 (dx * c + dy * s)). lra. }
  split; [exact Hsq|].
  rewrite <- sqrt_pow2 with (x := Rabs (f_e1 f)) by apply Rabs_pos.
  apply sqrt_le_1_alt. rewrite <- Rsqr_pow2, <- Rsqr_abs, Rsqr_pow2.
  exact Hsq.
Qed.

Lemma X16_lateral_error_within_distance_witness :
  exists f st',
    scenario_control statics_init = Ok (f, st') /\
    f_e1 f ^ 2 <= f_dx f ^ 2 + f_dy f ^ 2.
Proof.
  destruct scenario_run as (f & st' & Hrun & _).
  exists f, st'. split; [exact Hrun|].
  exact (proj1 (X16_lateral_error_within_distance _ _ _ _ _ _ _ _ _ _ _ _ _
                  _ _ _ _ _ _ _ _ Hrun)).
Defined.

(** X17.  In a completed call the heading error lies in [[-PI, PI)] and
    differs from [Psi_est - Psi[heading index]] by whole turns; with a bound
    [e1_max >= 0] the error term is at most [|k1|*e1_max + |k2|*PI] in
    magnitude. *)
Theorem X17_error_term_is_bounded (N : Z) (X_loc Y_loc Psi_loc : list R)
    (X_est Y_est Psi_est v lr lf lambda k1 k2 e1_max Ad_t Bd_t C_t D_t : R)
    (st st' : statics) (f : frame) :
  control N X_loc Y_loc Psi_loc X_est Y_est Psi_est v lr lf lambda
    k1 k2 e1_max Ad_t Bd_t C_t D_t st = Ok (f, st') ->
  - PI <= f_e2 f < PI /\
  (exists Psi_h (k : Z),
     load Psi_loc (f_closestpoint_heading_idx f) = Ok Psi_h /\
     f_e2 f = Psi_est - Psi_h + 2 * PI * IZR k) /\
  (0 <= e1_max ->
   Rabs (f_delta_ref_error f) <= Rabs k1 * e1_max + Rabs k2 * PI).
Proof.
  intros H. apply control_Ok_inv in H.
  destruct H as (idx & X_i & Y_i & Psi_n & Psi_i & X_p & Y_p & Psi_h & X_n
    & Y_n & _ & _ & _ & _ & _ & _ & _ & _ & _ & HPh & _ & _ & _ & _ & _ & _
    & _ & _ & He2 & _ & Herr & _).
  assert (Hr : - PI <= f_e2 f < PI) by (rewrite He2; apply wrap_angle_range).
  split; [exact Hr|]. split.
  - rewrite He2, wrap_angle_wrapped.
    destruct (wrapped_congruent (Psi_est - Psi_h + PI) (2 * PI)) as [m Hm].
    exists Psi_h, m. split; [exact HPh|]. rewrite Hm. ring.
  - intros Hmax. rewrite Herr. unfold steering_error.
    set (e1 := f_e1 f). set (e2 := f_e2 f) in *.
    assert (Hlat : Rabs (- k1 * sign e1 * min (Rabs e1) e1_max)
                   <= Rabs k1 * e1_max).
    { rewrite !Rabs_mult, Rabs_Ropp.
      assert (Hs : Rabs (sign e1) <= 1).
      { destruct (sign_cases e1) as [[_ ->]|[[_ ->]|[_ ->]]].
        - rewrite Rabs_R1. lra.
        - replace (Rabs (-1)) with 1
            by (unfold Rabs; destruct (Rcase_abs (-1)); lra).
          lra.
        - rewrite Rabs_R0. lra. }
      assert (Hm : 0 <= min (Rabs e1) e1_max <= e1_max).
      { pose proof (Rabs_pos e1). unfold min.
        destruct (Rltb_spec (Rabs e1) e1_max); lra. }
      rewrite (Rabs_pos_eq (min (Rabs e1) e1_max)) by lra.
      pose proof (Rabs_pos k1). pose proof (Rabs_pos (sign e1)).
      assert (Rabs (sign e1) * min (Rabs e1) e1_max <= e1_max) by nra.
      rewrite Rmult_assoc. nra. }
    assert (Hhead : Rabs (k2 * e2) <= Rabs k2 * PI).
    { rewrite Rabs_mult. pose proof (Rabs_pos k2).
      assert (Rabs e2 <= PI) by (apply Rabs_le; lra). nra. }
    unfold Rminus.
    eapply Rle_trans; [apply Rabs_triang|]. rewrite Rabs_Ropp. lra.
Qed.

Lemma X17_error_term_is_bounded_witness :
  exists f st',
    scenario_control statics_init = Ok (f, st') /\
    0 <= 1 /\
    Rabs (f_delta_ref_error f) <= Rabs 1 * 1 + Rabs 1 * PI.
Proof.
  destruct scenario_run as (f & st' & Hrun & _).
  assert (H : 0 <= 1) by lra.
  exists f, st'. split; [exact Hrun|]. split; [exact H|].
  exact (proj2 (proj2 (X17_error_term_is_bounded _ _ _ _ _ _ _ _ _ _ _ _ _
                         _ _ _ _ _ _ _ _ Hrun)) H).
Defined.

(** X18.  The heading index moves to the next waypoint only when the vehicle
    is at least one segment length away from the previous waypoint. *)
Theorem X18_heading_advances_only_when_far (N : Z)
    (X_loc Y_loc Psi_loc : list R)
    (X_est Y_est Psi_est v lr lf lambda k1 k2 e1_max Ad_t Bd_t C_t D_t : R)
    (st st' : statics) (f : frame) :
  control N X_loc Y_loc Psi_loc X_est Y_est Psi_est v lr lf lambda
    k1 k2 e1_max Ad_t Bd_t C_t D_t st = Ok (f, st') ->
  exists X_p Y_p,
    load X_loc (f_closestpoint_idx f - 1) = Ok X_p /\
    load Y_loc (f_closestpoint_idx f - 1) = Ok Y_p /\
    (f_closestpoint_heading_idx f = (f_closestpoint_idx f + 1)%Z ->
     f_compared_dist f <= sqrt ((X_p - X_est) ^ 2 + (Y_p - Y_est) ^ 2)).
Proof.
  intros H. apply control_Ok_inv in H.
  destruct H as (idx & X_i & Y_i & Psi_n & Psi_i & X_p & Y_p & Psi_h & X_n
    & Y_n & _ & _ & _ & _ & _ & HXp & HYp & _ & _ & _ & Hidx & Hproj & _
    & Hh & _).
  exists X_p, Y_p. rewrite Hidx.
  split; [exact HXp|]. split; [exact HYp|].
  intros Hadv.
  set (d := sqrt ((X_p - X_est) ^ 2 + (Y_p - Y_est) ^ 2)) in *.
  assert (Hd : 0 <= d) by apply sqrt_pos.
  assert (Hp : f_projected_dist f <= d).
  { rewrite Hproj. rewrite Rabs_mult, (Rabs_pos_eq d) by exact Hd.
    assert (Hc : Rabs (cos (atan ((Y_p - Y_est) / (X_p - X_est)) - Psi_i))
                 <= 1) by (apply Rabs_le; apply COS_bound).
    pose proof (Rabs_pos (cos (atan ((Y_p - Y_est) / (X_p - X_est))
                               - Psi_i))).
    nra. }
  rewrite Hh in Hadv. unfold select_heading_idx in Hadv.
  destruct (Rgeb_spec (f_projected_dist f) (f_compared_dist f)); [lra | lia].
Qed.

Lemma X18_heading_advances_only_when_far_witness :
  exists f st' X_p Y_p,
    scenario_control statics_init = Ok (f, st') /\
    (f_closestpoint_heading_idx f = (f_closestpoint_idx f + 1)%Z ->
     f_compared_dist f <= sqrt ((X_p - 1 / 2) ^ 2 + (Y_p - 0) ^ 2)).
Proof.
  destruct scenario_run as (f & st' & Hrun & _).
  destruct (X18_heading_advances_only_when_far _ _ _ _ _ _ _ _ _ _ _ _ _ _
              _ _ _ _ _ _ _ Hrun) as (X_p & Y_p & _ & _ & Hp).
  exists f, st', X_p, Y_p. split; [exact Hrun | exact Hp].
Defined.

(** ** The steering limit and the roll transform, lines 196-210 *)

(** X19.  In a completed call with a wheelbase [lr + lf <> 0] the angle
    given to [tan] is at most [PI/4] in magnitude, so [tan] is taken where
    the cosine is positive, away from its poles, and the roll reference lies
    strictly between [-PI/2] and [PI/2]. *)
Theorem X19_roll_reference_is_bounded (N : Z) (X_loc Y_loc Psi_loc : list R)
    (X_est Y_est Psi_est v lr lf lambda k1 k2 e1_max Ad_t Bd_t C_t D_t : R)
    (st st' : statics) (f : frame) :
  lr + lf <> 0 ->
  control N X_loc Y_loc Psi_loc X_est Y_est Psi_est v lr lf lambda
    k1 k2 e1_max Ad_t Bd_t C_t D_t st = Ok (f, st') ->
  Rabs (f_delta_ref f * sin lambda) <= PI / 4 /\
  0 < cos (f_delta_ref f * sin lambda) /\
  - (PI / 2) < roll_ref (outputs_of f) < PI / 2.
Proof.
  intros Hw H. apply control_Ok_inv in H.
  destruct H as (idx & X_i & Y_i & Psi_n & Psi_i & X_p & Y_p & Psi_h & X_n
    & Y_n & _ & _ & _ & _ & _ & _ & _ & _ & _ & _ & _ & _ & _ & _ & _ & _
    & _ & _ & _ & _ & _ & _ & _ & Hlim & Hroll & _).
  pose proof PI_RGT_0 as Hpi.
  assert (Hd : Rabs (f_delta_ref f) <= PI / 4).
  { rewrite Hlim. apply Rabs_le.
    pose proof (limit_delta_ref_range (f_delta_ref_sum f)). lra. }
  assert (Hs : Rabs (sin lambda) <= 1) by (apply Rabs_le; apply SIN_bound).
  assert (He : Rabs (f_delta_ref f * sin lambda) <= PI / 4).
  { rewrite Rabs_mult. pose proof (Rabs_pos (f_delta_ref f)).
    pose proof (Rabs_pos (sin lambda)). nra. }
  split; [exact He|]. split.
  - pose proof (Rle_abs (f_delta_ref f * sin lambda)).
    pose proof (Rle_abs (- (f_delta_ref f * sin lambda))) as Hn.
    rewrite Rabs_Ropp in Hn. apply cos_gt_0; lra.
  - cbn [outputs_of roll_ref]. rewrite Hroll. unfold roll_transform.
    match goal with |- context [atan ?t] => pose proof (atan_bound t) end.
    lra.
Qed.

Lemma X19_roll_reference_is_bounded_witness :
  exists f st',
    scenario_control statics_init = Ok (f, st') /\
    1 / 2 + 1 / 2 <> 0 /\
    - (PI / 2) < roll_ref (outputs_of f) < PI / 2.
Proof.
  destruct scenario_run as (f & st' & Hrun & _).
  assert (Hw : 1 / 2 + 1 / 2 <> 0) by lra.
  exists f, st'. split; [exact Hrun|]. split; [exact Hw|].
  exact (proj2 (proj2 (X19_roll_reference_is_bounded _ _ _ _ _ _ _ _ _ _ _ _
                         _ _ _ _ _ _ _ _ _ Hw Hrun))).
Defined.

(** X20.  The roll transform is odd in the steering reference and depends
    on the speed through its square only; with a wheelbase [lr + lf <> 0] it
    gives a zero roll reference at standstill. *)
Theorem X20_roll_transform_symmetries (lr lf lambda v delta_ref : R) :
  roll_transform lr lf lambda v (- delta_ref)
    = - roll_transform lr lf lambda v delta_ref /\
  roll_transform lr lf lambda (- v) delta_ref
    = roll_transform lr lf lambda v delta_ref /\
  (lr + lf <> 0 -> roll_transform lr lf lambda 0 delta_ref = 0).
Proof.
  unfold roll_transform. split; [|split; [|intros _]].
  - replace (- delta_ref * sin lambda) with (- (delta_ref * sin lambda))
      by ring.
    rewrite tan_neg.
    replace (- tan (delta_ref * sin lambda) * (v ^ 2 / (lr + lf)) / g)
      with (- (tan (delta_ref * sin lambda) * (v ^ 2 / (lr + lf)) / g))
      by (unfold Rdiv; ring).
    rewrite atan_opp. ring.
  - replace ((- v) ^ 2) with (v ^ 2) by ring. reflexivity.
  - replace (tan (delta_ref * sin lambda) * (0 ^ 2 / (lr + lf)) / g) with 0
      by (unfold Rdiv; ring).
    rewrite atan_0. ring.
Qed.

Lemma X20_roll_transform_symmetries_witness :
  1 / 2 + 1 / 2 <> 0 /\ roll_transform (1 / 2) (1 / 2) 1 0 (PI / 8) = 0.
Proof.
  assert (Hw : 1 / 2 + 1 / 2 <> 0) by lra.
  split; [exact Hw|].
  exact (proj2 (proj2 (X20_roll_transform_symmetries (1 / 2) (1 / 2) 1 0
                         (PI / 8))) Hw).
Defined.

(** X21.  For a moving vehicle with a positive wheelbase, a steering angle
    [delta_ref*sin(lambda)] in [(0, PI/2)] gives a negative roll reference:
    the roll reference opposes the steering reference. *)
Theorem X21_roll_opposes_steering (lr lf lambda v delta_ref : R) :
  0 < lr + lf -> v <> 0 ->
  0 < delta_ref * sin lambda < PI / 2 ->
  roll_transform lr lf lambda v delta_ref < 0.
Proof.
  intros Hw Hv [Hlo Hhi]. unfold roll_transform.
  assert (Ht : 0 < tan (delta_ref * sin lambda)) by (apply tan_gt_0; lra).
  assert (Hv2 : 0 < v ^ 2)
    by (rewrite <- Rsqr_pow2; apply Rsqr_pos_lt; exact Hv).
  assert (Hq : 0 < v ^ 2 / (lr + lf)) by (apply Rdiv_lt_0_compat; lra).
  assert (Hg : 0 < g) by (unfold g; lra).
  assert (Harg : 0 < tan (delta_ref * sin lambda) * (v ^ 2 / (lr + lf)) / g).
  { apply Rdiv_lt_0_compat; [|exact Hg]. apply Rmult_lt_0_compat; lra. }
  pose proof (atan_increasing _ _ Harg) as Hinc. rewrite atan_0 in Hinc. lra.
Qed.

Lemma X21_roll_opposes_steering_witness :
  0 < 1 / 2 + 1 / 2 /\ 1 <> 0 /\
  0 < PI / 8 * sin (PI / 2) < PI / 2 /\
  roll_transform (1 / 2) (1 / 2) (PI / 2) 1 (PI / 8) < 0.
Proof.
  assert (H1 : 0 < 1 / 2 + 1 / 2) by lra.
  assert (H2 : 1 <> 0) by lra.
  assert (H3 : 0 < PI / 8 * sin (PI / 2) < PI / 2)
    by (rewrite sin_PI2; pose proof PI_RGT_0; split; lra).
  split; [exact H1|]. split; [exact H2|]. split; [exact H3|].
  exact (X21_roll_opposes_steering (1 / 2) (1 / 2) (PI / 2) 1 (PI / 8)
           H1 H2 H3).
Defined.

(** X22.  The steering limit is monotone and idempotent: a larger reference
    never gives a smaller limited value, and limiting twice changes
    nothing. *)
Theorem X22_limit_delta_ref_monotone_idempotent (d d' : R) :
  (d <= d' -> limit_delta_ref d <= limit_delta_ref d') /\
  limit_delta_ref (limit_delta_ref d) = limit_delta_ref d.
Proof.
  pose proof PI_RGT_0 as Hpi. split.
  - intros Hle.
    destruct (Rle_dec d (- (PI / 4))) as [Hd|Hd].
    + destruct (Rle_lt_or_eq_dec _ _ Hd) as [Hd'| ->].
      * rewrite (limit_delta_ref_below d) by lra.
        pose proof (limit_delta_ref_range d'). lra.
      * rewrite (limit_delta_ref_inside (- (PI / 4))) by lra.
        pose proof (limit_delta_ref_range d').
        destruct (Rle_dec d' (PI / 4)).
        -- rewrite limit_delta_ref_inside; lra.
        -- lra.
    + destruct (Rle_dec d' (PI / 4)) as [Hd'|Hd'].
      * rewrite !limit_delta_ref_inside; lra.
      * rewrite (limit_delta_ref_above d') by lra.
        pose proof (limit_delta_ref_range d). lra.
  - apply limit_delta_ref_inside. apply limit_delta_ref_range.
Qed.

Lemma X22_limit_delta_ref_monotone_idempotent_witness :
  1 <= 2 /\ limit_delta_ref 1 <= limit_delta_ref 2.
Proof.
  assert (H : 1 <= 2) by lra.
  split; [exact H|].
  exact (proj1 (X22_limit_delta_ref_monotone_idempotent 1 2) H).
Defined.

(** ** The limiter of [D_psiref], lines 130-138, on every input *)

(** X23.  For every heading difference [D] the limited value differs from
    [D] by whole turns and lies in [(-PI, 2*PI)]; for [D >= PI] it lies in
    [(-PI, PI]], and for [D <= -PI] it is [mod(D, 2*PI)], in [[0, 2*PI)]. *)
Theorem X23_limit_D_psiref_on_every_input (D : R) :
  (exists k : Z, limit_D_psiref D = D + 2 * PI * IZR k) /\
  - PI < limit_D_psiref D < 2 * PI /\
  (D >= PI -> - PI < limit_D_psiref D <= PI) /\
  (D <= - PI ->
   limit_D_psiref D = mod_ D (2 * PI) /\ 0 <= limit_D_psiref D < 2 * PI).
Proof.
  pose proof PI_RGT_0 as Hpi.
  assert (Hlow : D <= - PI -> limit_D_psiref D = mod_ D (2 * PI)).
  { intros H. unfold limit_D_psiref, M_PI.
    destruct (Rgeb_spec D PI); [lra|].
    destruct (Rleb_spec D (- PI)); [reflexivity | lra]. }
  assert (Hhigh : D >= PI -> - PI < limit_D_psiref D <= PI).
  { intros H. apply limit_D_psiref_range. lra. }
  split; [|split; [|split]].
  - unfold limit_D_psiref, M_PI, mod_.
    destruct (Rgeb D PI); destruct (Rleb _ _).
    + exists (Int_part (D / (-2 * PI))
              - Int_part ((D - floor (D / (-2 * PI)) * (-2 * PI))
                          / (2 * PI)))%Z.
      rewrite minus_IZR. unfold floor. ring.
    + exists (Int_part (D / (-2 * PI))). unfold floor. ring.
    + exists (- Int_part (D / (2 * PI)))%Z. rewrite opp_IZR.
      unfold floor. ring.
    + exists 0%Z. ring.
  - destruct (Rge_dec D PI) as [H|H]; [specialize (Hhigh H); lra|].
    destruct (Rle_dec D (- PI)) as [H'|H'].
    + rewrite (Hlow H'). pose proof (mod_pos_range D (2 * PI)). lra.
    + rewrite limit_D_psiref_inside; lra.
  - exact Hhigh.
  - intros H. split; [exact (Hlow H)|].
    rewrite (Hlow H). apply mod_pos_range. lra.
Qed.

Lemma X23_limit_D_psiref_on_every_input_witness :
  - (5 / 2) * PI <= - PI /\
  limit_D_psiref (- (5 / 2) * PI) = mod_ (- (5 / 2) * PI) (2 * PI).
Proof.
  assert (H : - (5 / 2) * PI <= - PI) by (pose proof PI_RGT_0; lra).
  split; [exact H|].
  exact (proj1 (proj2 (proj2 (proj2
           (X23_limit_D_psiref_on_every_input (- (5 / 2) * PI))) ) H)).
Defined.

(** ** The stored state and the rest of the call *)

(** X24.  The stored filter state has no part in the geometry of a call:
    whether the call completes, the waypoint indices, both errors, the
    filter input and the error term are the same for every stored state. *)
Theorem X24_geometry_ignores_filter_state (N : Z)
    (X_loc Y_loc Psi_loc : list R)
    (X_est Y_est Psi_est v lr lf lambda k1 k2 e1_max Ad_t Bd_t C_t D_t : R)
    (st_a st_b st_a' : statics) (f_a : frame) :
  control N X_loc Y_loc Psi_loc X_est Y_est Psi_est v lr lf lambda
    k1 k2 e1_max Ad_t Bd_t C_t D_t st_a = Ok (f_a, st_a') ->
  exists f_b st_b',
    control N X_loc Y_loc Psi_loc X_est Y_est Psi_est v lr lf lambda
      k1 k2 e1_max Ad_t Bd_t C_t D_t st_b = Ok (f_b, st_b') /\
    f_closestpoint_idx f_b = f_closestpoint_idx f_a /\
    f_closestpoint_heading_idx f_b = f_closestpoint_heading_idx f_a /\
    closestpoint_idx_out (outputs_of f_b)
      = closestpoint_idx_out (outputs_of f_a) /\
    f_e1 f_b = f_e1 f_a /\ f_e2 f_b = f_e2 f_a /\
    f_dpsiref f_b = f_dpsiref f_a /\
    f_delta_ref_error f_b = f_delta_ref_error f_a.
Proof.
  intros H. unfold control in H. bind_inv H.
  unfold filter_step in H. injection H as <- <-.
  unfold control. rewrite E. cbn [bind].
  rewrite E0, E1, E2, E3, E4, E5. cbn [bind].
  rewrite E6, E7, E8. cbn [bind]. unfold filter_step.
  eexists. eexists. split; [reflexivity|]. cbn. repeat split.
Qed.

Lemma X24_geometry_ignores_filter_state_witness :
  exists f_a st_a' f_b st_b',
    scenario_control statics_init = Ok (f_a, st_a') /\
    scenario_control (mkStatics 7 3) = Ok (f_b, st_b') /\
    f_e1 f_b = f_e1 f_a.
Proof.
  destruct scenario_run as (f_a & st_a' & Hrun & _).
  destruct (X24_geometry_ignores_filter_state _ _ _ _ _ _ _ _ _ _ _ _ _ _ _
              _ _ _ _ (mkStatics 7 3) _ _ Hrun)
    as (f_b & st_b' & Hb & _ & _ & _ & He1 & _).
  exists f_a, st_a', f_b, st_b'.
  split; [exact Hrun|]. split; [exact Hb | exact He1].
Defined.

(** ** A straight path *)

(** X25.  Take a moving vehicle ([v <> 0]) with a wheelbase [lr + lf <> 0]
    on a window of constant heading [psi] whose closest point and next
    waypoint are distinct.  If the vehicle lies on the line through the
    closest point in direction [psi], its heading is [psi] up to whole
    turns and its filter is at rest, then both errors, the filter input and
    the roll reference are zero, and the filter stays at rest. *)
Theorem X25_aligned_vehicle_on_straight_path (N : Z)
    (X_loc Y_loc Psi_loc : list R)
    (X_est Y_est Psi_est v lr lf lambda k1 k2 e1_max Ad_t Bd_t C_t D_t : R)
    (st st' : statics) (f : frame) (psi t : R) (k : Z) :
  v <> 0 -> lr + lf <> 0 ->
  control N X_loc Y_loc Psi_loc X_est Y_est Psi_est v lr lf lambda
    k1 k2 e1_max Ad_t Bd_t C_t D_t st = Ok (f, st') ->
  (forall i, (0 <= i < Z.of_nat (length Psi_loc))%Z ->
             nth (Z.to_nat i) Psi_loc 0 = psi) ->
  (nth (Z.to_nat (f_closestpoint_idx f + 1)) X_loc 0
     <> nth (Z.to_nat (f_closestpoint_idx f)) X_loc 0 \/
   nth (Z.to_nat (f_closestpoint_idx f + 1)) Y_loc 0
     <> nth (Z.to_nat (f_closestpoint_idx f)) Y_loc 0) ->
  Psi_est = psi + 2 * PI * IZR k ->
  f_dx f = t * cos psi -> f_dy f = t * sin psi ->
  static_x st = 0 ->
  f_e1 f = 0 /\ f_e2 f = 0 /\ f_dpsiref f = 0 /\
  roll_ref (outputs_of f) = 0 /\ static_x st' = 0.
Proof.
  intros Hv Hw H Hpsi Hdistinct HPsi_est Hdx Hdy Hx.
  apply control_Ok_inv in H.
  destruct H as (idx & X_i & Y_i & Psi_n & Psi_i & X_p & Y_p & Psi_h & X_n
    & Y_n & _ & _ & _ & HPn & HPi & _ & _ & _ & _ & HPh & _ & _ & _ & _ & _
    & _ & HD & He1 & He2 & Hdpsi & Herr & Hfil & Hsum & Hlim & Hroll & _).
  apply load_Ok_inv in HPn, HPi, HPh.
  destruct HPn as [Hn1 Hn2], HPi as [Hi1 Hi2], HPh as [Hh1 Hh2].
  rewrite Hpsi in Hn2, Hi2, Hh2 by assumption. subst Psi_n Psi_i Psi_h.
  pose proof PI_RGT_0 as Hpi.
  assert (E1 : f_e1 f = 0) by (rewrite He1, Hdx, Hdy; ring).
  assert (E2 : f_e2 f = 0).
  { rewrite He2, HPsi_est.
    replace (psi + 2 * PI * IZR k - psi) with (0 + 2 * PI * IZR k) by ring.
    rewrite wrap_angle_periodic. apply wrap_angle_fixes. lra. }
  assert (Ed : f_dpsiref f = 0).
  { rewrite Hdpsi, HD. replace (psi - psi) with 0 by ring.
    rewrite limit_D_psiref_inside by lra. unfold Rdiv at 1. ring. }
  unfold filter_step in Hfil. injection Hfil as Hpsi' Hst.
  split; [exact E1|]. split; [exact E2|]. split; [exact Ed|]. split.
  - cbn [outputs_of roll_ref].
    rewrite Hroll, Hlim, Hsum, Hpsi', Herr, E1, E2, Hx, Ed.
    unfold steering_error. rewrite sign_zero.
    replace (C_t * 0 + D_t * 0
             + (- k1 * 0 * min (Rabs 0) e1_max - k2 * 0)) with 0 by ring.
    rewrite limit_delta_ref_inside by lra.
    apply roll_transform_zero.
  - rewrite Hst. cbn [store_x static_x]. rewrite Hx, Ed. ring.
Qed.

Lemma scenario_offsets (f : frame) (st' : statics) :
  scenario_control statics_init = Ok (f, st') ->
  f_closestpoint_idx f = 1%Z /\
  f_dx f = - (1 / 2) * cos 0 /\ f_dy f = - (1 / 2) * sin 0.
Proof.
  intros Hrun. unfold scenario_control in Hrun.
  apply control_Ok_inv in Hrun.
  destruct Hrun as (idx & X_i & Y_i & Psi_n & Psi_i & X_p & Y_p & Psi_h
    & X_n & Y_n & Hs & HXi & HYi & _ & _ & _ & _ & _ & _ & _ & Hidx & _ & _
    & _ & Hdx & Hdy & _).
  rewrite scenario_search in Hs. injection Hs as <-.
  change (load scenario_X 1) with (Ok 1) in HXi. injection HXi as <-.
  change (load scenario_Y 1) with (Ok 0) in HYi. injection HYi as <-.
  rewrite Hdx, Hdy, sin_0, cos_0. split; [exact Hidx|]. split; lra.
Qed.

Lemma scenario_heading_constant (i : Z) :
  (0 <= i < Z.of_nat (length scenario_Psi))%Z ->
  nth (Z.to_nat i) scenario_Psi 0 = 0.
Proof.
  intros Hi. change (Z.of_nat (length scenario_Psi)) with 5%Z in Hi.
  assert (Hc : i = 0%Z \/ i = 1%Z \/ i = 2%Z \/ i = 3%Z \/ i = 4%Z) by lia.
  destruct Hc as [->|[->|[->|[->| ->]]]]; reflexivity.
Qed.

Lemma X25_aligned_vehicle_on_straight_path_witness :
  exists f st',
    scenario_control statics_init = Ok (f, st') /\
    1 <> 0 /\ 1 / 2 + 1 / 2 <> 0 /\
    0 = 0 + 2 * PI * IZR 0 /\
    f_dx f = - (1 / 2) * cos 0 /\ f_dy f = - (1 / 2) * sin 0 /\
    static_x statics_init = 0 /\
    roll_ref (outputs_of f) = 0 /\ static_x st' = 0.
Proof.
  destruct scenario_run as (f & st' & Hrun & _).
  destruct (scenario_offsets f st' Hrun) as (Hidx & Hdx & Hdy).
  assert (Hv : 1 <> 0) by lra.
  assert (Hw : 1 / 2 + 1 / 2 <> 0) by lra.
  assert (Hk : 0 = 0 + 2 * PI * IZR 0) by lra.
  assert (Hdist :
    nth (Z.to_nat (f_closestpoint_idx f + 1)) scenario_X 0
      <> nth (Z.to_nat (f_closestpoint_idx f)) scenario_X 0 \/
    nth (Z.to_nat (f_closestpoint_idx f + 1)) scenario_Y 0
      <> nth (Z.to_nat (f_closestpoint_idx f)) scenario_Y 0).
  { left. rewrite Hidx. change (2 <> 1). lra. }
  exists f, st'. split; [exact Hrun|]. split; [exact Hv|].
  split; [exact Hw|]. split; [exact Hk|]. split; [exact Hdx|].
  split; [exact Hdy|]. split; [reflexivity|].
  exact (proj2 (proj2 (proj2
    (X25_aligned_vehicle_on_straight_path 5 scenario_X scenario_Y
       scenario_Psi (1 / 2) 0 0 1 (1 / 2) (1 / 2) 1 1 1 1 0 0 0 1
       statics_init st' f 0 (- (1 / 2)) 0 Hv Hw Hrun
       scenario_heading_constant Hdist Hk Hdx Hdy eq_refl)))).
Defined.
